(** * follow-drone: the GPS telemetry receiver (receiver.cpp)

    A shallow embedding of the receiver's framing, decoding and latency
    bookkeeping, and the properties of it that the specification states.

    Modelling choices, all taken from the source:
    - a [char] of the byte buffer is a [byte]; the buffer (a
      [std::vector<char>]) is a [list byte];
    - [float] and [double] are IEEE-754 binary32 and binary64 values, written
      with the standard library's [spec_float] and its operations
      (round to nearest, ties to even);
    - [uint32_t], [uint64_t], [size_t] and [int] are [Z] with the wrap-around
      written out;
    - [std::deque<double>] is a [list] whose head is the front of the deque;
    - the wall clock and the socket are inputs: the clock is a function from
      the ordinal of the call of [system_clock::now()] to milliseconds since
      the epoch, the socket is the list of the results of [read];
    - [display] writes to the console: the model appends what it is handed to
      a trace of render events. *)

From Stdlib Require Import ZArith List Lia Bool QArith Qpower.
From Stdlib Require Import Floats.SpecFloat.
From Stdlib Require Import Strings.Byte.
Import ListNotations.

Local Open Scope Z_scope.

(** ** Constants (receiver.cpp, lines 17-20) *)

Definition PORT : Z := 40739.
Definition MSG_SIZE : nat := 24.
Definition DELAY_WINDOW : nat := 5.

(** ** Machine integers *)

Module Machine.

Definition wrap (w : Z) (x : Z) : Z := x mod 2 ^ w.

(** [int]: two's complement on 32 bits. *)
Definition wrap_int (x : Z) : Z := (x + 2 ^ 31) mod 2 ^ 32 - 2 ^ 31.

(** [size_t] on the 64-bit host. *)
Definition wrap_size (x : Z) : Z := wrap 64 x.

Definition byte_val (b : byte) : Z := Z.of_N (Byte.to_N b).

(** [memcpy] of [n] bytes at [data + off] into an unsigned integer of the
    little-endian host: the first byte is the least significant one. *)
Fixpoint le_value (bs : list byte) : Z :=
  match bs with
  | [] => 0
  | b :: r => Z.lor (byte_val b) (Z.shiftl (le_value r) 8)
  end.

Definition memcpy_uint (data : list byte) (off n : nat) : Z :=
  le_value (firstn n (skipn off data)).

(** The big-endian reading of the same bytes, for comparison. *)
Definition be_value (bs : list byte) : Z :=
  fold_left (fun acc b => Z.lor (Z.shiftl acc 8) (byte_val b)) bs 0.

Definition byte_at (x : Z) (i : Z) : Z := Z.land (Z.shiftr x (8 * i)) 255.

(** [ntohl] and [be64toh] on the little-endian host: a byte swap. *)
Definition ntohl (x : Z) : Z :=
  Z.lor (Z.shiftl (byte_at x 0) 24)
 (Z.lor (Z.shiftl (byte_at x 1) 16)
 (Z.lor (Z.shiftl (byte_at x 2) 8)
        (byte_at x 3))).

Definition be64toh (x : Z) : Z :=
  Z.lor (Z.shiftl (byte_at x 0) 56)
 (Z.lor (Z.shiftl (byte_at x 1) 48)
 (Z.lor (Z.shiftl (byte_at x 2) 40)
 (Z.lor (Z.shiftl (byte_at x 3) 32)
 (Z.lor (Z.shiftl (byte_at x 4) 24)
 (Z.lor (Z.shiftl (byte_at x 5) 16)
 (Z.lor (Z.shiftl (byte_at x 6) 8)
        (byte_at x 7))))))).

End Machine.

(** ** IEEE-754 values *)

Module IEEE.

(** binary32 ([float]) and binary64 ([double]). *)
Definition prec32 : Z := 24.
Definition emax32 : Z := 128.
Definition prec64 : Z := 53.
Definition emax64 : Z := 1024.

Definition float := spec_float.
Definition double := spec_float.

(** Conversion of an integer to [float] and to [double] (the implicit
    conversions of lines 63-71, 107, 108 and 183), in the default rounding
    mode: to nearest, ties to even. *)
Definition float_of_Z (n : Z) : float := binary_normalize prec32 emax32 n 0 false.
Definition double_of_Z (n : Z) : double := binary_normalize prec64 emax64 n 0 false.

Definition dadd : double -> double -> double := SFadd prec64 emax64.
Definition dsub : double -> double -> double := SFsub prec64 emax64.
Definition dmul : double -> double -> double := SFmul prec64 emax64.
Definition ddiv : double -> double -> double := SFdiv prec64 emax64.

Definition dzero : double := S754_zero false.
Definition dinfinity : double := S754_infinity false.
Definition dneg_infinity : double := S754_infinity true.

(** [a < b] and [a <= b] of C++ on doubles (false on NaN). *)
Definition dlt (a b : double) : bool := SFltb a b.
Definition dle (a b : double) : bool := SFleb a b.

(** [std::max(a, b)] is [(a < b) ? b : a]; [std::min(a, b)] is
    [(b < a) ? b : a]. *)
Definition std_max (a b : double) : double := if dlt a b then b else a.
Definition std_min (a b : double) : double := if dlt b a then b else a.

Definition is_nan (x : spec_float) : bool :=
  match x with S754_nan => true | _ => false end.

(** The rational a finite value stands for. *)
Definition to_Q (x : spec_float) : option Q :=
  match x with
  | S754_zero _ => Some 0%Q
  | S754_finite s m e =>
      let mag := (inject_Z (Z.pos m) * Qpower 2 e)%Q in
      Some (if s then Qopp mag else mag)
  | _ => None
  end.

(** The binary32 interchange format: sign bit, 8 exponent bits with bias
    127, 23 fraction bits. Used to say what a bit pattern encodes, never
    by the receiver. *)
Definition float_of_bits32 (w : Z) : float :=
  let s := Z.testbit w 31 in
  let ex := Z.land (Z.shiftr w 23) 255 in
  let fr := Z.land w (2 ^ 23 - 1) in
  if ex =? 255 then (if fr =? 0 then S754_infinity s else S754_nan)
  else if ex =? 0 then
    match fr with
    | Z.pos m => S754_finite s m (-149)
    | _ => S754_zero s
    end
  else
    match Z.lor fr (2 ^ 23) with
    | Z.pos m => S754_finite s m (ex - 150)
    | _ => S754_nan
    end.

(** The binary64 interchange format: sign bit, 11 exponent bits with bias
    1023, 52 fraction bits. *)
Definition double_of_bits64 (w : Z) : double :=
  let s := Z.testbit w 63 in
  let ex := Z.land (Z.shiftr w 52) 2047 in
  let fr := Z.land w (2 ^ 52 - 1) in
  if ex =? 2047 then (if fr =? 0 then S754_infinity s else S754_nan)
  else if ex =? 0 then
    match fr with
    | Z.pos m => S754_finite s m (-1074)
    | _ => S754_zero s
    end
  else
    match Z.lor fr (2 ^ 52) with
    | Z.pos m => S754_finite s m (ex - 1075)
    | _ => S754_nan
    end.

End IEEE.

Import Machine IEEE.

(** ** The decoded record (lines 33-38) *)

Record GPSData := mkGPSData {
  lat : float;
  lon : float;
  alt : float;
  timestamp : double
}.

(** [unpack_data] (lines 57-74). Each field is copied into an unsigned
    integer, byte-swapped, and the integer is then converted to the field's
    floating-point type. *)
Definition unpack_data (data : list byte) : GPSData :=
  let temp := memcpy_uint data 0 4 in
  let r_lat := float_of_Z (ntohl temp) in
  let temp := memcpy_uint data 4 4 in
  let r_lon := float_of_Z (ntohl temp) in
  let temp := memcpy_uint data 8 4 in
  let r_alt := float_of_Z (ntohl temp) in
  let timestamp_temp := memcpy_uint data 12 8 in
  let r_timestamp := double_of_Z (be64toh timestamp_temp) in
  mkGPSData r_lat r_lon r_alt r_timestamp.

(** ** Receiver state *)

(** The global [metrics] object (lines 23-31). *)
Record Metrics := mkMetrics {
  total_received : Z;          (* int *)
  corrupted_packets : Z;       (* int *)
  max_delay : double;
  min_delay : double;
  delay_history : list double; (* std::deque<double> *)
  buffer : list byte;          (* std::vector<char> *)
  total_bytes : Z              (* size_t *)
}.

Definition metrics_init : Metrics :=
  {| total_received := 0;
     corrupted_packets := 0;
     max_delay := dzero;
     min_delay := dinfinity;
     delay_history := [];
     buffer := [];
     total_bytes := 0 |}.

(** What one call of [display] (lines 76-102) is handed and reads: its
    arguments, the counters of [metrics] it prints, and the clock. *)
Record RenderEvent := mkRenderEvent {
  r_data : GPSData;
  r_current_delay : double;
  r_avg_delay : double;
  r_total_bytes : Z;
  r_buffer_size : nat;
  r_clock : Z
}.

(** [metrics], the locals of [start_receiver] that live across iterations,
    the number of clock readings made so far, and the console. *)
Record Receiver := mkReceiver {
  metrics : Metrics;
  delay_avg : list double;     (* std::deque<double>, line 156 *)
  clock_calls : nat;
  console : list RenderEvent
}.

Definition receiver_init : Receiver :=
  {| metrics := metrics_init; delay_avg := []; clock_calls := 0; console := [] |}.

(** The result of one [read] on the socket (line 160): the bytes placed in
    the local buffer (at most 1024 of them, [valread] is their number), or
    an error ([valread = -1]). *)
Inductive read_result :=
| ReadBytes (chunk : list byte)
| ReadError.

Definition valread (r : read_result) : Z :=
  match r with
  | ReadBytes chunk => Z.of_nat (length chunk)
  | ReadError => -1
  end.

(** ** The latency bookkeeping of one frame (lines 176-190) *)

(** [push_back] followed by the bounded [pop_front] (lines 176-179). *)
Definition push_window (w : list double) (latency : double) : list double :=
  let w1 := w ++ [latency] in
  if (DELAY_WINDOW <? length w1)%nat then tl w1 else w1.

(** [std::accumulate(first, last, 0.0)]. *)
Definition accumulate (w : list double) (init : double) : double :=
  fold_left dadd w init.

(** Lines 181-184. *)
Definition average (w : list double) : double :=
  match w with
  | [] => dzero
  | _ => ddiv (accumulate w dzero) (double_of_Z (Z.of_nat (length w)))
  end.

(** Lines 187-190. *)
Definition update_metrics (m : Metrics) (latency : double) : Metrics :=
  {| total_received := wrap_int (total_received m + 1);
     corrupted_packets := corrupted_packets m;
     max_delay := std_max (max_delay m) latency;
     min_delay := std_min (min_delay m) latency;
     delay_history := delay_history m ++ [latency];
     buffer := buffer m;
     total_bytes := total_bytes m |}.

Definition set_buffer (m : Metrics) (b : list byte) : Metrics :=
  {| total_received := total_received m;
     corrupted_packets := corrupted_packets m;
     max_delay := max_delay m;
     min_delay := min_delay m;
     delay_history := delay_history m;
     buffer := b;
     total_bytes := total_bytes m |}.

Definition add_total_bytes (m : Metrics) (n : Z) : Metrics :=
  {| total_received := total_received m;
     corrupted_packets := corrupted_packets m;
     max_delay := max_delay m;
     min_delay := min_delay m;
     delay_history := delay_history m;
     buffer := buffer m;
     total_bytes := wrap_size (total_bytes m + n) |}.

(** Lines 166-167: [total_bytes += valread] and the insertion of the bytes
    read at the end of the buffer. *)
Definition append_chunk (st : Receiver) (chunk : list byte) : Receiver :=
  let m := add_total_bytes (metrics st) (Z.of_nat (length chunk)) in
  {| metrics := set_buffer m (buffer m ++ chunk);
     delay_avg := delay_avg st;
     clock_calls := clock_calls st;
     console := console st |}.

Section Receiver.

(** [now_ms k]: the wall clock, in milliseconds since the epoch, at the
    [k]-th call of [std::chrono::system_clock::now()]. *)
Variable now_ms : nat -> Z.

(** [calculate_latency] (lines 104-109), at clock reading [k]. *)
Definition calculate_latency (k : nat) (sent_ts : double) : double :=
  let current_ts := ddiv (double_of_Z (now_ms k)) (double_of_Z 1000) in
  dmul (dsub current_ts sent_ts) (double_of_Z 1000).

(** The body of the inner loop (lines 170-194): decode the frame at the
    front of the buffer, erase it, update the statistics, render.
    [old_coords] (line 193) is a string [display] receives and never
    prints; it is left out. *)
Definition process_frame (st : Receiver) : Receiver :=
  let m := metrics st in
  let data := unpack_data (buffer m) in
  let m1 := set_buffer m (skipn MSG_SIZE (buffer m)) in
  let latency := calculate_latency (clock_calls st) (timestamp data) in
  let w := push_window (delay_avg st) latency in
  let avg_delay := average w in
  let m2 := update_metrics m1 latency in
  let ev := {| r_data := data;
               r_current_delay := latency;
               r_avg_delay := avg_delay;
               r_total_bytes := total_bytes m2;
               r_buffer_size := length (buffer m2);
               r_clock := now_ms (S (clock_calls st)) |} in
  {| metrics := m2;
     delay_avg := w;
     clock_calls := S (S (clock_calls st));
     console := console st ++ [ev] |}.

(** The inner loop (line 169), unrolled at most [fuel] times. *)
Fixpoint drain_loop (fuel : nat) (st : Receiver) : Receiver :=
  match fuel with
  | O => st
  | S fuel' =>
      if (MSG_SIZE <=? length (buffer (metrics st)))%nat
      then drain_loop fuel' (process_frame st)
      else st
  end.

(** Every iteration erases [MSG_SIZE] bytes, so the length of the buffer
    bounds the number of iterations. *)
Definition drain (st : Receiver) : Receiver :=
  drain_loop (length (buffer (metrics st))) st.

(** Lines 166-195: account for the bytes read, append them, drain. *)
Definition on_read (st : Receiver) (chunk : list byte) : Receiver :=
  drain (append_chunk st chunk).

(** The outer loop (lines 158-196) over the successive results of [read];
    it stops at the first result that is not positive. When the list ends
    the receiver is blocked in the next [read]. *)
Fixpoint receive (reads : list read_result) (st : Receiver) : Receiver :=
  match reads with
  | [] => st
  | r :: rest =>
      if valread r <=? 0 then st
      else
        match r with
        | ReadBytes chunk => receive rest (on_read st chunk)
        | ReadError => st
        end
  end.

(** [start_receiver] from the accepted connection on. *)
Definition start_receiver (reads : list read_result) : Receiver :=
  receive reads receiver_init.

(** The fixes decoded so far, in the order they were handed to [display]. *)
Definition fixes (st : Receiver) : list GPSData := map r_data (console st).

(** The delays computed so far, in the same order. *)
Definition delays (st : Receiver) : list double :=
  map r_current_delay (console st).

End Receiver.

(** ** Notions the properties are stated with *)

(** The framing alone, without the receiver's state: the records decoded
    from a buffer by at most [fuel] iterations, and the bytes left. *)
Fixpoint split_frames (fuel : nat) (buf : list byte) : list GPSData * list byte :=
  match fuel with
  | O => ([], buf)
  | S fuel' =>
      if (MSG_SIZE <=? length buf)%nat
      then let (fs, rest) := split_frames fuel' (skipn MSG_SIZE buf) in
           (unpack_data buf :: fs, rest)
      else ([], buf)
  end.

Definition decode_stream (buf : list byte) : list GPSData * list byte :=
  split_frames (length buf) buf.

(** The last [n] elements of a list, in order. *)
Definition lastn {A : Type} (n : nat) (l : list A) : list A :=
  skipn (length l - n) l.

(** The states of a run: the initial one, and those reached by appending
    the bytes of a [read] or by one iteration of the inner loop. *)
Inductive reachable (now_ms : nat -> Z) : Receiver -> Prop :=
| reach_init : reachable now_ms receiver_init
| reach_append st chunk :
    reachable now_ms st -> reachable now_ms (append_chunk st chunk)
| reach_frame st :
    reachable now_ms st ->
    (MSG_SIZE <= length (buffer (metrics st)))%nat ->
    reachable now_ms (process_frame now_ms st).

(** The bytes a list of reads delivers. *)
Fixpoint bytes_read (reads : list read_result) : Z :=
  match reads with
  | [] => 0
  | ReadBytes chunk :: rest => Z.of_nat (length chunk) + bytes_read rest
  | ReadError :: rest => bytes_read rest
  end.

(** The frame counter accounts for every byte that left the buffer. *)
Definition counters_agree (m : Metrics) : Prop :=
  0 <= total_received m /\
  total_received m * 24 + Z.of_nat (length (buffer m)) = total_bytes m.

(** The first byte count the [int] frame counter cannot follow:
    [INT_MAX + 1] frames. *)
Definition counter_limit : Z := 24 * 2 ^ 31.

(** [x] is within [tol] of [target]. *)
Definition within (x : spec_float) (target tol : Q) : bool :=
  match to_Q x with
  | Some q => Qle_bool (target - tol) q && Qle_bool q (target + tol)
  | None => false
  end.

(** ** Sample inputs *)

(** The bytes of the binary32 patterns of 37.422, -122.084 and 30.0, of the
    binary64 pattern of 1700000000.0, and four more bytes. *)
Definition frame_ieee : list byte :=
  [x42; x15; xb0; x21;  xc2; xf4; x2b; x02;  x41; xf0; x00; x00;
   x41; xd9; x54; xfc; x40; x00; x00; x00;  x00; x00; x00; x00].

(** A frame whose timestamp bytes are the integer 1700000001. *)
Definition frame_late : list byte :=
  [x00; x00; x00; x25;  x00; x00; x00; x7a;  x00; x00; x00; x1e;
   x00; x00; x00; x00; x65; x53; xf1; x01;  x00; x00; x00; x00].

(** A clock at 1700000000 s that advances one millisecond per reading. *)
Definition clock_ms (k : nat) : Z := 1700000000000 + Z.of_nat k.

(** Six frames in a row. *)
Definition six_frames : list byte := concat (repeat frame_late 6).

Definition chunk20 : list byte := firstn 20 (frame_ieee ++ frame_late).
Definition chunk28 : list byte := skipn 20 (frame_ieee ++ frame_late).

(** ** Further notions *)

(** The fix decoded from the [k]-th frame of a byte stream. *)
Definition frame_at (stream : list byte) (k : nat) : GPSData :=
  unpack_data (skipn (MSG_SIZE * k) stream).

(** What [display] prints as "Queued Messages" and as "Partial Message"
    (lines 91-92), from the buffer size it reads. *)
Definition queued_messages (ev : RenderEvent) : nat :=
  (r_buffer_size ev / MSG_SIZE)%nat.

Definition partial_message (ev : RenderEvent) : nat :=
  (r_buffer_size ev mod MSG_SIZE)%nat.

(** Zero or a positive finite value: no NaN, no infinity, no sign. *)
Definition finite_nonneg (x : spec_float) : bool :=
  match x with
  | S754_zero false | S754_finite false _ _ => true
  | _ => false
  end.

(** A read that delivered at least one byte. *)
Definition delivers (r : read_result) : Prop := 0 < valread r.

(** Each render event shows a byte total made of the frames displayed so
    far and of the buffer it shows, and there is one event per frame
    counted. *)
Definition console_agrees (st : Receiver) : Prop :=
  Z.of_nat (length (console st)) = total_received (metrics st) /\
  forall (i : nat) (ev : RenderEvent),
    nth_error (console st) i = Some ev ->
    r_total_bytes ev = 24 * (Z.of_nat i + 1) + Z.of_nat (r_buffer_size ev).


(** * Properties *)

(** ** Lists *)

Lemma firstn_skipn_app {A : Type} (off n : nat) (a b : list A) :
  (off + n <= length a)%nat ->
  firstn n (skipn off (a ++ b)) = firstn n (skipn off a).
Proof.
  intros Hlen.
  rewrite skipn_app, firstn_app, length_skipn.
  replace (n - (length a - off))%nat with 0%nat by lia.
  simpl. apply app_nil_r.
Qed.

Lemma lastn_short {A : Type} (n : nat) (l : list A) :
  (length l <= n)%nat -> lastn n l = l.
Proof.
  intros H. unfold lastn.
  replace (length l - n)%nat with 0%nat by lia. reflexivity.
Qed.

Lemma length_lastn {A : Type} (n : nat) (l : list A) :
  length (lastn n l) = Nat.min n (length l).
Proof. unfold lastn. rewrite length_skipn. lia. Qed.

Lemma tl_skipn {A : Type} (k : nat) (l : list A) :
  tl (skipn k l) = skipn (S k) l.
Proof.
  revert l. induction k as [|k IH]; intros [|x l]; simpl; auto.
Qed.

Lemma tl_app_nonempty {A : Type} (l r : list A) :
  l <> [] -> tl (l ++ r) = tl l ++ r.
Proof. destruct l; [congruence | reflexivity]. Qed.

(** ** Framing *)

(** [unpack_data] reads the first 20 bytes only. *)
Lemma unpack_data_app (a b : list byte) :
  (MSG_SIZE <= length a)%nat -> unpack_data (a ++ b) = unpack_data a.
Proof.
  unfold MSG_SIZE. intros H. unfold unpack_data, memcpy_uint.
  rewrite !firstn_skipn_app by lia. reflexivity.
Qed.

Lemma split_frames_S (fuel : nat) (buf : list byte) :
  split_frames (S fuel) buf =
  if (MSG_SIZE <=? length buf)%nat
  then let (fs, rest) := split_frames fuel (skipn MSG_SIZE buf) in
       (unpack_data buf :: fs, rest)
  else ([], buf).
Proof. reflexivity. Qed.

Lemma split_frames_short (fuel : nat) (buf : list byte) :
  (length buf < MSG_SIZE)%nat -> split_frames fuel buf = ([], buf).
Proof.
  intros H. destruct fuel as [|fuel]; [reflexivity|].
  rewrite split_frames_S.
  apply Nat.leb_gt in H. rewrite H. reflexivity.
Qed.

(** Fuel beyond the length of the buffer is never used. *)
Lemma split_frames_fuel (n : nat) :
  forall (m : nat) (buf : list byte),
    (length buf <= n)%nat -> (length buf <= m)%nat ->
    split_frames n buf = split_frames m buf.
Proof.
  induction n as [|n IH]; intros m buf Hn Hm.
  - rewrite (split_frames_short m) by (unfold MSG_SIZE; lia). reflexivity.
  - destruct m as [|m].
    + rewrite (split_frames_short (S n)) by (unfold MSG_SIZE; lia). reflexivity.
    + rewrite !split_frames_S.
      destruct (Nat.leb_spec MSG_SIZE (length buf)) as [Hge|Hlt]; [|reflexivity].
      unfold MSG_SIZE in *.
      rewrite (IH m); [reflexivity | |]; rewrite length_skipn; lia.
Qed.

Lemma split_frames_rest (fuel : nat) :
  forall buf : list byte,
    (length buf <= fuel)%nat ->
    (length (snd (split_frames fuel buf)) < MSG_SIZE)%nat.
Proof.
  induction fuel as [|fuel IH]; intros buf H.
  - simpl. unfold MSG_SIZE. lia.
  - rewrite split_frames_S.
    destruct (Nat.leb_spec MSG_SIZE (length buf)) as [Hge|Hlt]; [|exact Hlt].
    specialize (IH (skipn MSG_SIZE buf)). rewrite length_skipn in IH.
    destruct (split_frames fuel (skipn MSG_SIZE buf)); simpl in *.
    apply IH. unfold MSG_SIZE in *. lia.
Qed.

(** Decoding [a ++ b] is decoding [a], then decoding what [a] left followed
    by [b]. *)
Lemma split_frames_app (b : list byte) (n : nat) :
  forall a : list byte,
    (length a <= n)%nat ->
    decode_stream (a ++ b) =
    let (f1, r1) := split_frames n a in
    let (f2, r2) := decode_stream (r1 ++ b) in
    (f1 ++ f2, r2).
Proof.
  induction n as [|n IH]; intros a Hlen.
  - destruct a; [|simpl in Hlen; lia]. simpl.
    destruct (decode_stream b); reflexivity.
  - rewrite split_frames_S.
    destruct (Nat.leb_spec MSG_SIZE (length a)) as [Hge|Hlt].
    + specialize (IH (skipn MSG_SIZE a)). rewrite length_skipn in IH.
      assert (Hn : (length a - MSG_SIZE <= n)%nat) by (unfold MSG_SIZE in *; lia).
      specialize (IH Hn).
      destruct (split_frames n (skipn MSG_SIZE a)) as [f1 r1].
      destruct (decode_stream (r1 ++ b)) as [f2 r2].
      unfold decode_stream in *.
      assert (Hab : length (a ++ b) = S (length (a ++ b) - 1))
        by (rewrite length_app; unfold MSG_SIZE in *; lia).
      rewrite Hab at 1. rewrite split_frames_S.
      assert (Hle : (MSG_SIZE <=? length (a ++ b))%nat = true)
        by (apply Nat.leb_le; rewrite length_app; lia).
      rewrite Hle.
      rewrite (split_frames_fuel _ (length (skipn MSG_SIZE (a ++ b))))
        by (rewrite length_skipn; unfold MSG_SIZE in *; lia).
      replace (skipn MSG_SIZE (a ++ b)) with (skipn MSG_SIZE a ++ b)
        by (rewrite skipn_app;
            replace (MSG_SIZE - length a)%nat with 0%nat by lia;
            reflexivity).
      rewrite IH, unpack_data_app by assumption.
      reflexivity.
    + destruct (decode_stream (a ++ b)); reflexivity.
Qed.

Lemma decode_stream_app (a b : list byte) :
  decode_stream (a ++ b) =
  let (f1, r1) := decode_stream a in
  let (f2, r2) := decode_stream (r1 ++ b) in
  (f1 ++ f2, r2).
Proof. apply split_frames_app. lia. Qed.

Lemma decode_stream_short (buf : list byte) :
  (length buf < MSG_SIZE)%nat -> decode_stream buf = ([], buf).
Proof. apply split_frames_short. Qed.

Section Framing.

Variable now_ms : nat -> Z.

Lemma buffer_process_frame (st : Receiver) :
  buffer (metrics (process_frame now_ms st)) =
  skipn MSG_SIZE (buffer (metrics st)).
Proof. reflexivity. Qed.

Lemma fixes_process_frame (st : Receiver) :
  fixes (process_frame now_ms st) =
  fixes st ++ [unpack_data (buffer (metrics st))].
Proof. unfold fixes. simpl. apply map_app. Qed.

Lemma buffer_append_chunk (st : Receiver) (chunk : list byte) :
  buffer (metrics (append_chunk st chunk)) = buffer (metrics st) ++ chunk.
Proof. reflexivity. Qed.

(** The inner loop decodes what [split_frames] decodes and leaves what it
    leaves. *)
Lemma drain_loop_S (fuel : nat) (st : Receiver) :
  drain_loop now_ms (S fuel) st =
  if (MSG_SIZE <=? length (buffer (metrics st)))%nat
  then drain_loop now_ms fuel (process_frame now_ms st)
  else st.
Proof. reflexivity. Qed.

Lemma drain_loop_split (fuel : nat) :
  forall st : Receiver,
    fixes (drain_loop now_ms fuel st) =
      fixes st ++ fst (split_frames fuel (buffer (metrics st))) /\
    buffer (metrics (drain_loop now_ms fuel st)) =
      snd (split_frames fuel (buffer (metrics st))).
Proof.
  induction fuel as [|fuel IH]; intros st.
  - simpl. rewrite app_nil_r. auto.
  - rewrite drain_loop_S, split_frames_S.
    destruct (Nat.leb_spec MSG_SIZE (length (buffer (metrics st)))) as [Hge|Hlt].
    + destruct (IH (process_frame now_ms st)) as [Hf Hb].
      rewrite buffer_process_frame in Hf, Hb.
      rewrite fixes_process_frame in Hf.
      destruct (split_frames fuel (skipn MSG_SIZE (buffer (metrics st)))).
      simpl in *. rewrite Hf, Hb, <- app_assoc. auto.
    + simpl. rewrite app_nil_r. auto.
Qed.

Lemma on_read_decode (st : Receiver) (chunk : list byte) :
  fixes (on_read now_ms st chunk) =
    fixes st ++ fst (decode_stream (buffer (metrics st) ++ chunk)) /\
  buffer (metrics (on_read now_ms st chunk)) =
    snd (decode_stream (buffer (metrics st) ++ chunk)).
Proof.
  unfold on_read, drain, decode_stream.
  rewrite buffer_append_chunk.
  apply (drain_loop_split _ (append_chunk st chunk)).
Qed.

Lemma on_read_buffer (st : Receiver) (chunk : list byte) :
  (length (buffer (metrics (on_read now_ms st chunk))) < MSG_SIZE)%nat.
Proof.
  destruct (on_read_decode st chunk) as [_ ->].
  apply split_frames_rest. lia.
Qed.

(** A run over non-empty chunks decodes the concatenation of the chunks. *)
Lemma receive_decode (cs : list (list byte)) :
  forall st : Receiver,
    Forall (fun c => c <> []) cs ->
    (length (buffer (metrics st)) < MSG_SIZE)%nat ->
    fixes (receive now_ms (map ReadBytes cs) st) =
      fixes st ++ fst (decode_stream (buffer (metrics st) ++ concat cs)) /\
    buffer (metrics (receive now_ms (map ReadBytes cs) st)) =
      snd (decode_stream (buffer (metrics st) ++ concat cs)).
Proof.
  induction cs as [|c cs IH]; intros st Hne Hbuf.
  - simpl. rewrite !app_nil_r, decode_stream_short by assumption.
    simpl. rewrite app_nil_r. auto.
  - inversion Hne as [|? ? Hc Hcs]; subst.
    cbn [map receive valread].
    destruct (Z.leb_spec (Z.of_nat (length c)) 0) as [Hz|_].
    { destruct c; [congruence | simpl in Hz; lia]. }
    destruct (IH (on_read now_ms st c) Hcs (on_read_buffer st c)) as [Hf Hb].
    destruct (on_read_decode st c) as [Hf1 Hb1].
    cbn [concat].
    rewrite (app_assoc (buffer (metrics st)) c (concat cs)).
    rewrite (decode_stream_app (buffer (metrics st) ++ c) (concat cs)).
    destruct (decode_stream (buffer (metrics st) ++ c)) as [f1 r1].
    simpl in Hf1, Hb1. rewrite Hf, Hb, Hf1, Hb1.
    destruct (decode_stream (r1 ++ concat cs)) as [f2 r2].
    simpl. rewrite app_assoc. auto.
Qed.

End Framing.

(** ** Order on doubles *)

Lemma SFcompare_refl (x : spec_float) :
  is_nan x = false -> SFcompare x x = Some Eq.
Proof.
  destruct x as [s|s| |s m e]; simpl; intros H;
    try discriminate; try reflexivity.
  - destruct s; reflexivity.
  - rewrite Z.compare_refl.
    change (Pos.compare_cont Eq m m) with (Pos.compare m m).
    rewrite Pos.compare_refl. destruct s; reflexivity.
Qed.

Lemma dle_refl (x : double) : is_nan x = false -> dle x x = true.
Proof. intros H. unfold dle, SFleb. rewrite SFcompare_refl; auto. Qed.

Lemma dlt_dle (a b : double) : dlt a b = true -> dle a b = true.
Proof.
  unfold dlt, dle, SFltb, SFleb.
  destruct (SFcompare a b) as [[]|]; congruence.
Qed.

Lemma dlt_not_nan (a b : double) :
  dlt a b = true -> is_nan a = false /\ is_nan b = false.
Proof.
  unfold dlt, SFltb.
  destruct a, b; simpl; try discriminate; auto.
Qed.

Lemma std_max_ge (m d : double) :
  is_nan m = false -> dle m (std_max m d) = true.
Proof.
  intros H. unfold std_max. destruct (dlt m d) eqn:E.
  - apply dlt_dle, E.
  - apply dle_refl, H.
Qed.

Lemma std_min_le (m d : double) :
  is_nan m = false -> dle (std_min m d) m = true.
Proof.
  intros H. unfold std_min. destruct (dlt d m) eqn:E.
  - apply dlt_dle, E.
  - apply dle_refl, H.
Qed.

Lemma std_max_not_nan (m d : double) :
  is_nan m = false -> is_nan (std_max m d) = false.
Proof.
  intros H. unfold std_max. destruct (dlt m d) eqn:E; [|exact H].
  apply dlt_not_nan in E. tauto.
Qed.

Lemma std_min_not_nan (m d : double) :
  is_nan m = false -> is_nan (std_min m d) = false.
Proof.
  intros H. unfold std_min. destruct (dlt d m) eqn:E; [|exact H].
  apply dlt_not_nan in E. tauto.
Qed.

(** ** The rolling window *)

Lemma push_window_lastn (l : list double) (x : double) :
  push_window (lastn DELAY_WINDOW l) x = lastn DELAY_WINDOW (l ++ [x]).
Proof.
  unfold push_window, lastn, DELAY_WINDOW.
  rewrite !length_app, length_skipn. cbn [length].
  destruct (Nat.ltb_spec 5 (length l - (length l - 5) + 1)) as [Hlt|Hge].
  - assert (Hne : skipn (length l - 5) l <> []).
    { intros E. apply (f_equal (@length _)) in E.
      rewrite length_skipn in E. simpl in E. lia. }
    rewrite tl_app_nonempty by exact Hne.
    rewrite tl_skipn, skipn_app.
    replace (length l + 1 - 5)%nat with (S (length l - 5)) by lia.
    replace (S (length l - 5) - length l)%nat with 0%nat by lia.
    reflexivity.
  - replace (length l - 5)%nat with 0%nat by lia.
    replace (length l + 1 - 5)%nat with 0%nat by lia.
    reflexivity.
Qed.

Lemma push_window_last (w : list double) (x : double) :
  exists w0 : list double, push_window w x = w0 ++ [x].
Proof.
  unfold push_window.
  destruct (DELAY_WINDOW <? length (w ++ [x]))%nat eqn:E.
  - destruct w as [|y w].
    + discriminate E.
    + exists w. reflexivity.
  - exists w. reflexivity.
Qed.

(** ** Invariants of a run *)

Section Run.

Variable now_ms : nat -> Z.

Lemma delays_process_frame (st : Receiver) :
  delays (process_frame now_ms st) =
  delays st ++
  [calculate_latency now_ms (clock_calls st)
     (timestamp (unpack_data (buffer (metrics st))))].
Proof. unfold delays. simpl. apply map_app. Qed.

Lemma drain_loop_reachable (fuel : nat) :
  forall st : Receiver,
    reachable now_ms st -> reachable now_ms (drain_loop now_ms fuel st).
Proof.
  induction fuel as [|fuel IH]; intros st H; [exact H|].
  rewrite drain_loop_S.
  destruct (Nat.leb_spec MSG_SIZE (length (buffer (metrics st)))) as [Hge|_].
  - apply IH. apply reach_frame; assumption.
  - exact H.
Qed.

Lemma receive_reachable (reads : list read_result) :
  forall st : Receiver,
    reachable now_ms st -> reachable now_ms (receive now_ms reads st).
Proof.
  induction reads as [|r reads IH]; intros st H; [exact H|].
  cbn [receive]. destruct (valread r <=? 0); [exact H|].
  destruct r as [chunk|]; [|exact H].
  apply IH. unfold on_read, drain.
  apply drain_loop_reachable, reach_append, H.
Qed.

Lemma start_receiver_reachable (reads : list read_result) :
  reachable now_ms (start_receiver now_ms reads).
Proof. apply receive_reachable, reach_init. Qed.

(** Neither running extremum is ever a NaN. *)
Lemma reachable_extrema (st : Receiver) :
  reachable now_ms st ->
  is_nan (max_delay (metrics st)) = false /\
  is_nan (min_delay (metrics st)) = false.
Proof.
  induction 1 as [|st chunk _ IH|st _ IH _]; simpl.
  - auto.
  - exact IH.
  - destruct IH as [Hmax Hmin]. split.
    + apply std_max_not_nan, Hmax.
    + apply std_min_not_nan, Hmin.
Qed.

(** The window is the last [DELAY_WINDOW] delays computed. *)
Lemma reachable_window (st : Receiver) :
  reachable now_ms st -> delay_avg st = lastn DELAY_WINDOW (delays st).
Proof.
  induction 1 as [|st chunk _ IH|st _ IH _].
  - reflexivity.
  - exact IH.
  - rewrite delays_process_frame, <- push_window_lastn, <- IH. reflexivity.
Qed.

(** [delay_history] is every delay computed. *)
Lemma reachable_history (st : Receiver) :
  reachable now_ms st -> delay_history (metrics st) = delays st.
Proof.
  induction 1 as [|st chunk _ IH|st _ IH _].
  - reflexivity.
  - exact IH.
  - rewrite delays_process_frame, <- IH. reflexivity.
Qed.

End Run.

(** ** Counters *)

Lemma wrap_int_small (x : Z) : - 2 ^ 31 <= x < 2 ^ 31 -> wrap_int x = x.
Proof. intros H. unfold wrap_int. rewrite Z.mod_small; lia. Qed.

Lemma wrap_size_small (x : Z) : 0 <= x < 2 ^ 64 -> wrap_size x = x.
Proof. intros H. unfold wrap_size, wrap. apply Z.mod_small. lia. Qed.

Lemma bytes_read_nonneg (reads : list read_result) : 0 <= bytes_read reads.
Proof.
  induction reads as [|[chunk|] reads IH]; simpl; lia.
Qed.

Section Counters.

Variable now_ms : nat -> Z.

Lemma total_received_process_frame (st : Receiver) :
  total_received (metrics (process_frame now_ms st)) =
  wrap_int (total_received (metrics st) + 1).
Proof. reflexivity. Qed.

Lemma total_bytes_process_frame (st : Receiver) :
  total_bytes (metrics (process_frame now_ms st)) = total_bytes (metrics st).
Proof. reflexivity. Qed.

Lemma total_bytes_append_chunk (st : Receiver) (chunk : list byte) :
  total_bytes (metrics (append_chunk st chunk)) =
  wrap_size (total_bytes (metrics st) + Z.of_nat (length chunk)).
Proof. reflexivity. Qed.

Lemma total_received_append_chunk (st : Receiver) (chunk : list byte) :
  total_received (metrics (append_chunk st chunk)) =
  total_received (metrics st).
Proof. reflexivity. Qed.

Lemma process_frame_counters (st : Receiver) :
  counters_agree (metrics st) ->
  total_bytes (metrics st) < counter_limit ->
  (MSG_SIZE <= length (buffer (metrics st)))%nat ->
  counters_agree (metrics (process_frame now_ms st)).
Proof.
  unfold counters_agree, counter_limit, MSG_SIZE. intros [Hpos Heq] Hlim Hge.
  rewrite total_received_process_frame, total_bytes_process_frame,
    buffer_process_frame, length_skipn.
  unfold MSG_SIZE. rewrite wrap_int_small by lia. lia.
Qed.

Lemma drain_loop_counters (fuel : nat) :
  forall st : Receiver,
    counters_agree (metrics st) ->
    total_bytes (metrics st) < counter_limit ->
    counters_agree (metrics (drain_loop now_ms fuel st)) /\
    total_bytes (metrics (drain_loop now_ms fuel st)) = total_bytes (metrics st).
Proof.
  induction fuel as [|fuel IH]; intros st Hc Hlim; [auto|].
  rewrite drain_loop_S.
  destruct (Nat.leb_spec MSG_SIZE (length (buffer (metrics st)))) as [Hge|_];
    [|auto].
  destruct (IH (process_frame now_ms st)) as [Hc' Hb'].
  - apply process_frame_counters; assumption.
  - rewrite total_bytes_process_frame. exact Hlim.
  - rewrite Hb', total_bytes_process_frame. auto.
Qed.

Lemma append_chunk_counters (st : Receiver) (chunk : list byte) :
  counters_agree (metrics st) ->
  total_bytes (metrics st) + Z.of_nat (length chunk) < counter_limit ->
  counters_agree (metrics (append_chunk st chunk)) /\
  total_bytes (metrics (append_chunk st chunk)) =
  total_bytes (metrics st) + Z.of_nat (length chunk).
Proof.
  unfold counters_agree, counter_limit. intros [Hpos Heq] Hlim.
  rewrite total_received_append_chunk, total_bytes_append_chunk,
    buffer_append_chunk, length_app.
  rewrite wrap_size_small by lia. lia.
Qed.



End Counters.

(** ** The reassembler *)

(** C5. After every append call (the bytes of a read appended, then the
    inner loop run), the buffered remainder is shorter than a frame: its
    length is between 0 and 23. *)
Theorem remainder_below_frame_size :
  forall (now_ms : nat -> Z) (st : Receiver) (chunk : list byte),
    (length (buffer (metrics (on_read now_ms st chunk))) < MSG_SIZE)%nat /\
    0 <= Z.of_nat (length (buffer (metrics (on_read now_ms st chunk)))) <= 23.
Proof.
  intros now_ms st chunk.
  pose proof (on_read_buffer now_ms st chunk) as H.
  unfold MSG_SIZE in *. lia.
Qed.

(** C3. Chunking invariance: the receiver fed the non-empty chunks of a
    byte sequence one read at a time decodes the same fixes, in the same
    order, as the receiver fed the whole sequence in a single read. *)
Theorem chunking_invariance :
  forall (now_ms : nat -> Z) (cs : list (list byte)),
    Forall (fun c => c <> []) cs ->
    fixes (start_receiver now_ms (map ReadBytes cs)) =
    fixes (start_receiver now_ms [ReadBytes (concat cs)]).
Proof.
  intros now_ms cs Hne. unfold start_receiver.
  destruct (receive_decode now_ms cs receiver_init Hne) as [Hf _].
  { simpl. unfold MSG_SIZE. lia. }
  rewrite Hf. cbn [receive valread].
  destruct (Z.leb_spec (Z.of_nat (length (concat cs))) 0) as [Hz|_].
  - destruct (concat cs); [reflexivity | simpl in Hz; lia].
  - destruct (on_read_decode now_ms receiver_init (concat cs)) as [-> _].
    reflexivity.
Qed.

Lemma chunking_invariance_witness :
  fixes (start_receiver clock_ms (map ReadBytes [chunk20; chunk28])) =
  fixes (start_receiver clock_ms [ReadBytes (concat [chunk20; chunk28])]).
Proof.
  apply (chunking_invariance clock_ms [chunk20; chunk28]).
  repeat constructor; discriminate.
Defined.

(** C7, as the code has it. 20 bytes and then 28 bytes are 48 bytes, two
    frames: the first call decodes nothing and buffers the 20 bytes, the
    second call decodes exactly two fixes and leaves the buffer empty. *)
Theorem straddling_reads_20_28 :
  forall (now_ms : nat -> Z) (a b : list byte),
    length a = 20%nat -> length b = 28%nat ->
    let s1 := on_read now_ms receiver_init a in
    let s2 := on_read now_ms s1 b in
    fixes s1 = [] /\ buffer (metrics s1) = a /\
    fixes s2 = [unpack_data (a ++ b); unpack_data (skipn MSG_SIZE (a ++ b))] /\
    buffer (metrics s2) = [].
Proof.
  intros now_ms a b Ha Hb s1 s2.
  destruct (on_read_decode now_ms receiver_init a) as [Hf1 Hb1].
  destruct (on_read_decode now_ms s1 b) as [Hf2 Hb2].
  fold s1 in Hf1, Hb1. fold s2 in Hf2, Hb2.
  change (buffer (metrics receiver_init) ++ a) with a in Hf1, Hb1.
  rewrite decode_stream_short in Hf1, Hb1 by (unfold MSG_SIZE; lia).
  simpl in Hf1, Hb1. rewrite Hb1, Hf1 in *.
  assert (Hd : decode_stream (a ++ b) =
               ([unpack_data (a ++ b); unpack_data (skipn MSG_SIZE (a ++ b))], [])).
  { unfold decode_stream.
    assert (Hlen : length (a ++ b) = 48%nat) by (rewrite length_app; lia).
    rewrite Hlen, split_frames_S, Hlen.
    change (MSG_SIZE <=? 48)%nat with true. cbv iota.
    rewrite split_frames_S, length_skipn, Hlen.
    change (MSG_SIZE <=? 48 - MSG_SIZE)%nat with true. cbv iota.
    rewrite split_frames_short
      by (rewrite !length_skipn, Hlen; unfold MSG_SIZE; simpl; lia).
    rewrite (skipn_all2 (n := MSG_SIZE) (skipn MSG_SIZE (a ++ b)))
      by (rewrite length_skipn, Hlen; unfold MSG_SIZE; simpl; lia).
    reflexivity. }
  rewrite Hd in Hf2, Hb2. auto.
Qed.

Lemma straddling_reads_20_28_witness :
  let s1 := on_read clock_ms receiver_init chunk20 in
  let s2 := on_read clock_ms s1 chunk28 in
  fixes s1 = [] /\ buffer (metrics s1) = chunk20 /\
  fixes s2 = [unpack_data (chunk20 ++ chunk28);
              unpack_data (skipn MSG_SIZE (chunk20 ++ chunk28))] /\
  buffer (metrics s2) = [].
Proof.
  exact (straddling_reads_20_28 clock_ms chunk20 chunk28 eq_refl eq_refl).
Defined.

(** C7, as the specification words it, fails: the second call does not
    yield exactly one fix. *)
Lemma straddling_reads_one_fix_counterexample :
  ~ (forall (now_ms : nat -> Z) (a b : list byte),
       length a = 20%nat -> length b = 28%nat ->
       let s2 := on_read now_ms (on_read now_ms receiver_init a) b in
       length (fixes s2) = 1%nat /\ buffer (metrics s2) = []).
Proof.
  intros H.
  destruct (H clock_ms chunk20 chunk28 eq_refl eq_refl) as [Hone _].
  vm_compute in Hone. discriminate Hone.
Qed.


(** ** The latency tracker *)

(** C9. From any state of a run, the next update leaves the running
    maximum at least what it was and the running minimum at most what it
    was: over two successive updates, max2 >= max1 and min2 <= min1. *)
Theorem extrema_monotone :
  forall (now_ms : nat -> Z) (s1 : Receiver),
    reachable now_ms s1 ->
    let s2 := process_frame now_ms s1 in
    dle (max_delay (metrics s1)) (max_delay (metrics s2)) = true /\
    dle (min_delay (metrics s2)) (min_delay (metrics s1)) = true.
Proof.
  intros now_ms s1 H s2.
  destruct (reachable_extrema now_ms s1 H) as [Hmax Hmin].
  split; simpl.
  - apply std_max_ge, Hmax.
  - apply std_min_le, Hmin.
Qed.

Lemma extrema_monotone_witness :
  let s1 := process_frame clock_ms (append_chunk receiver_init six_frames) in
  let s2 := process_frame clock_ms s1 in
  dle (max_delay (metrics s1)) (max_delay (metrics s2)) = true /\
  dle (min_delay (metrics s2)) (min_delay (metrics s1)) = true.
Proof.
  apply (extrema_monotone clock_ms
           (process_frame clock_ms (append_chunk receiver_init six_frames))).
  apply reach_frame.
  - apply reach_append, reach_init.
  - vm_compute. lia.
Defined.

(** C4. In every state of a run the rolling window holds at most 5
    delays, and they are the most recent ones in arrival order; pushing a
    sixth delay on a full window evicts the oldest. *)
Theorem rolling_window_fifo :
  forall (now_ms : nat -> Z) (st : Receiver),
    reachable now_ms st ->
    (length (delay_avg st) <= 5)%nat /\
    delay_avg st = lastn 5 (delays st) /\
    (forall a b c d e f : double,
        push_window [a; b; c; d; e] f = [b; c; d; e; f]).
Proof.
  intros now_ms st H.
  pose proof (reachable_window now_ms st H) as Hw.
  unfold DELAY_WINDOW in Hw. repeat split.
  - rewrite Hw, length_lastn. lia.
  - exact Hw.
Qed.

Lemma rolling_window_fifo_witness :
  let st := start_receiver clock_ms [ReadBytes six_frames] in
  (length (delay_avg st) <= 5)%nat /\
  delay_avg st = lastn 5 (delays st) /\
  (forall a b c d e f : double,
      push_window [a; b; c; d; e] f = [b; c; d; e; f]).
Proof.
  apply (rolling_window_fifo clock_ms
           (start_receiver clock_ms [ReadBytes six_frames])).
  apply start_receiver_reachable.
Defined.

(** C8, as the code has it. Besides the window, [metrics.delay_history]
    keeps every delay of the session in arrival order: in every state of a
    run it is the list of all delays computed, one per decoded fix. *)
Theorem delay_history_complete :
  forall (now_ms : nat -> Z) (st : Receiver),
    reachable now_ms st ->
    delay_history (metrics st) = delays st /\
    length (delay_history (metrics st)) = length (fixes st).
Proof.
  intros now_ms st H.
  pose proof (reachable_history now_ms st H) as Hh.
  split; [exact Hh|].
  rewrite Hh. unfold delays, fixes. rewrite !length_map. reflexivity.
Qed.

Lemma delay_history_complete_witness :
  let st := start_receiver clock_ms [ReadBytes six_frames] in
  delay_history (metrics st) = delays st /\
  length (delay_history (metrics st)) = length (fixes st).
Proof.
  apply (delay_history_complete clock_ms
           (start_receiver clock_ms [ReadBytes six_frames])).
  apply start_receiver_reachable.
Defined.

(** C8, as the specification words it, fails: after six frames the state
    holds six delays in [delay_history], more than the window's five. *)
Lemma history_beyond_window_counterexample :
  ~ (forall (now_ms : nat -> Z) (reads : list read_result),
       let st := start_receiver now_ms reads in
       (length (delay_history (metrics st)) <= DELAY_WINDOW)%nat).
Proof.
  intros H. specialize (H clock_ms [ReadBytes six_frames]).
  vm_compute in H. lia.
Qed.



(** ** The decoder *)

(** C1, on the code. Take any frame that starts with the binary32
    patterns of 37.422, -122.084 and 30.0 in network order. The patterns do
    encode those values within 1e-3, but [unpack_data] returns the integers
    the patterns spell, converted to [float]: 1108717568, 3270781696 and
    1106247680. With the binary64 pattern of 1700000000.0 as timestamp it
    returns 4744917124793761792, not the value the pattern encodes. *)
Theorem unpack_data_ieee_patterns :
  forall rest : list byte,
    let header := [x42; x15; xb0; x21;  xc2; xf4; x2b; x02;  x41; xf0; x00; x00] in
    let fix_ := unpack_data (header ++ rest) in
    (within (float_of_bits32 (be_value (firstn 4 header))) (37422 # 1000) (1 # 1000) = true /\
     within (float_of_bits32 (be_value (firstn 4 (skipn 4 header)))) (-122084 # 1000) (1 # 1000) = true /\
     within (float_of_bits32 (be_value (firstn 4 (skipn 8 header)))) 30 (1 # 1000) = true) /\
    (to_Q (lat fix_) = Some 1108717568%Q /\
     to_Q (lon fix_) = Some 3270781696%Q /\
     to_Q (alt fix_) = Some 1106247680%Q) /\
    (within (lat fix_) (37422 # 1000) (1 # 1000) = false /\
     within (lon fix_) (-122084 # 1000) (1 # 1000) = false /\
     within (alt fix_) 30 (1 # 1000) = false) /\
    (header ++ skipn 12 frame_ieee = frame_ieee /\
     double_of_bits64 (be_value (firstn 8 (skipn 12 frame_ieee))) =
       S754_finite false 7130316800000000 (-22) /\
     timestamp (unpack_data frame_ieee) =
       S754_finite false 4633708129681408 10 /\
     to_Q (timestamp (unpack_data frame_ieee)) = Some 4744917124793761792%Q).
Proof.
  intros rest header fix_. subst fix_ header.
  unfold unpack_data, memcpy_uint.
  cbn [lat lon alt app firstn skipn].
  repeat split; vm_compute; reflexivity.
Qed.

(** ** The seed of the running maximum *)

(** C2, on the code. [max_delay] starts at 0.0 and [min_delay] at plus
    infinity. After one frame whose delay is -1000 ms, [min_delay] is that
    delay but [max_delay] is still 0.0, a delay that was never seen. *)
Theorem max_delay_seed_is_zero :
  let st := start_receiver clock_ms [ReadBytes frame_late] in
  let d := S754_finite true 8796093022208000 (-43) in
  max_delay metrics_init = dzero /\
  min_delay metrics_init = dinfinity /\
  delays st = [d] /\
  within d (-1000) 0 = true /\
  dlt d dzero = true /\
  min_delay (metrics st) = d /\
  max_delay (metrics st) = dzero.
Proof. vm_compute. repeat split; reflexivity. Qed.


(** * Further properties of the code *)

(** ** Byte order *)

Lemma lor_shiftl_add (n x y : Z) :
  0 <= n -> 0 <= x < 2 ^ n -> Z.lor (Z.shiftl y n) x = y * 2 ^ n + x.
Proof.
  intros Hn Hx.
  assert (Hland : Z.land (Z.shiftl y n) x = 0).
  { apply Z.bits_inj'. intros i Hi.
    rewrite Z.land_spec, Z.bits_0.
    destruct (Z.lt_ge_cases i n) as [Hlt|Hge].
    - rewrite Z.shiftl_spec_low by exact Hlt. reflexivity.
    - replace x with (x mod 2 ^ n) by (apply Z.mod_small; exact Hx).
      rewrite Z.mod_pow2_bits_high by lia. apply andb_false_r. }
  rewrite <- Z.lxor_lor by exact Hland.
  rewrite <- Z.add_nocarry_lxor by exact Hland.
  rewrite Z.shiftl_mul_pow2 by exact Hn. reflexivity.
Qed.

Lemma byte_val_range (b : byte) : 0 <= byte_val b < 2 ^ 8.
Proof. destruct b; vm_compute; split; congruence. Qed.

Lemma byte_at_spec (x i : Z) :
  0 <= i -> byte_at x i = (x / 2 ^ (8 * i)) mod 2 ^ 8.
Proof.
  intros Hi. unfold byte_at. change 255 with (Z.ones 8).
  rewrite Z.land_ones by lia. rewrite Z.shiftr_div_pow2 by lia. reflexivity.
Qed.

Lemma le_value_cons (b : byte) (r : list byte) :
  0 <= le_value r -> le_value (b :: r) = byte_val b + 2 ^ 8 * le_value r.
Proof.
  intros Hr. cbn [le_value]. rewrite Z.lor_comm.
  rewrite lor_shiftl_add; [lia | lia | apply byte_val_range].
Qed.

Lemma le_value_nonneg (l : list byte) : 0 <= le_value l.
Proof.
  induction l as [|b r IH]; [reflexivity|].
  rewrite le_value_cons by exact IH.
  pose proof (byte_val_range b). lia.
Qed.

Lemma le_value_4 (b0 b1 b2 b3 : byte) :
  le_value [b0; b1; b2; b3] =
  byte_val b0 + 2 ^ 8 * byte_val b1 + 2 ^ 16 * byte_val b2 + 2 ^ 24 * byte_val b3.
Proof.
  rewrite !le_value_cons by apply le_value_nonneg. cbn [le_value]. lia.
Qed.

Lemma be_value_snoc (l : list byte) (b : byte) :
  be_value (l ++ [b]) = be_value l * 2 ^ 8 + byte_val b.
Proof.
  unfold be_value. rewrite fold_left_app. cbn [fold_left].
  apply lor_shiftl_add; [lia | apply byte_val_range].
Qed.

Lemma be_value_4 (b0 b1 b2 b3 : byte) :
  be_value [b0; b1; b2; b3] =
  2 ^ 24 * byte_val b0 + 2 ^ 16 * byte_val b1 + 2 ^ 8 * byte_val b2 + byte_val b3.
Proof.
  change [b0; b1; b2; b3] with (((([] ++ [b0]) ++ [b1]) ++ [b2]) ++ [b3]).
  rewrite !be_value_snoc. change (be_value []) with 0. lia.
Qed.

Lemma le_value_8 (b0 b1 b2 b3 b4 b5 b6 b7 : byte) :
  le_value [b0; b1; b2; b3; b4; b5; b6; b7] =
  byte_val b0 + 2 ^ 8 * byte_val b1 + 2 ^ 16 * byte_val b2 +
  2 ^ 24 * byte_val b3 + 2 ^ 32 * byte_val b4 + 2 ^ 40 * byte_val b5 +
  2 ^ 48 * byte_val b6 + 2 ^ 56 * byte_val b7.
Proof.
  rewrite !le_value_cons by apply le_value_nonneg. cbn [le_value]. lia.
Qed.

Lemma be_value_8 (b0 b1 b2 b3 b4 b5 b6 b7 : byte) :
  be_value [b0; b1; b2; b3; b4; b5; b6; b7] =
  2 ^ 56 * byte_val b0 + 2 ^ 48 * byte_val b1 + 2 ^ 40 * byte_val b2 +
  2 ^ 32 * byte_val b3 + 2 ^ 24 * byte_val b4 + 2 ^ 16 * byte_val b5 +
  2 ^ 8 * byte_val b6 + byte_val b7.
Proof.
  change [b0; b1; b2; b3; b4; b5; b6; b7]
    with (((((((([] ++ [b0]) ++ [b1]) ++ [b2]) ++ [b3]) ++ [b4]) ++ [b5])
            ++ [b6]) ++ [b7]).
  rewrite !be_value_snoc. change (be_value []) with 0. lia.
Qed.

(** The byte of rank [i] of [lo + 2^(8 i) * (b + 2^8 * hi)] is [b]. *)
Lemma byte_at_digit (i lo b hi : Z) :
  0 <= i -> 0 <= lo < 2 ^ (8 * i) -> 0 <= b < 2 ^ 8 ->
  byte_at (lo + 2 ^ (8 * i) * (b + 2 ^ 8 * hi)) i = b.
Proof.
  intros Hi Hlo Hb. rewrite byte_at_spec by exact Hi.
  assert (Hpow : 0 < 2 ^ (8 * i)) by (apply Z.pow_pos_nonneg; lia).
  replace (lo + 2 ^ (8 * i) * (b + 2 ^ 8 * hi))
    with ((b + 2 ^ 8 * hi) * 2 ^ (8 * i) + lo) by ring.
  rewrite Z.div_add_l by lia. rewrite (Z.div_small lo) by exact Hlo.
  rewrite Z.add_0_r, (Z.mul_comm (2 ^ 8) hi), Z.mod_add by lia.
  apply Z.mod_small, Hb.
Qed.

(** [ntohl] undoes the little-endian reading of [memcpy]: what is
    converted is the big-endian value of the four bytes. *)
Lemma ntohl_le_value (b0 b1 b2 b3 : byte) :
  ntohl (le_value [b0; b1; b2; b3]) = be_value [b0; b1; b2; b3].
Proof.
  pose proof (byte_val_range b0) as H0. pose proof (byte_val_range b1) as H1.
  pose proof (byte_val_range b2) as H2. pose proof (byte_val_range b3) as H3.
  rewrite le_value_4, be_value_4. unfold ntohl.
  set (x := byte_val b0 + 2 ^ 8 * byte_val b1 + 2 ^ 16 * byte_val b2 +
            2 ^ 24 * byte_val b3).
  assert (E0 : byte_at x 0 = byte_val b0).
  { replace x with (0 + 1 *
      (byte_val b0 + 2 ^ 8 * (byte_val b1 + 2 ^ 8 * byte_val b2 + 2 ^ 16 * byte_val b3)))
      by (subst x; ring).
    apply (byte_at_digit 0); lia. }
  assert (E1 : byte_at x 1 = byte_val b1).
  { replace x with (byte_val b0 + 2 ^ 8 *
      (byte_val b1 + 2 ^ 8 * (byte_val b2 + 2 ^ 8 * byte_val b3)))
      by (subst x; ring).
    apply (byte_at_digit 1); lia. }
  assert (E2 : byte_at x 2 = byte_val b2).
  { replace x with ((byte_val b0 + 2 ^ 8 * byte_val b1) + 2 ^ 16 *
      (byte_val b2 + 2 ^ 8 * byte_val b3))
      by (subst x; ring).
    apply (byte_at_digit 2); lia. }
  assert (E3 : byte_at x 3 = byte_val b3).
  { replace x with ((byte_val b0 + 2 ^ 8 * byte_val b1 + 2 ^ 16 * byte_val b2)
      + 2 ^ 24 * (byte_val b3 + 2 ^ 8 * 0))
      by (subst x; ring).
    apply (byte_at_digit 3); lia. }
  rewrite E0, E1, E2, E3.
  rewrite (lor_shiftl_add 8) by lia.
  rewrite (lor_shiftl_add 16) by lia.
  rewrite (lor_shiftl_add 24) by lia.
  lia.
Qed.

Lemma be64toh_le_value (b0 b1 b2 b3 b4 b5 b6 b7 : byte) :
  be64toh (le_value [b0; b1; b2; b3; b4; b5; b6; b7]) =
  be_value [b0; b1; b2; b3; b4; b5; b6; b7].
Proof.
  pose proof (byte_val_range b0) as H0. pose proof (byte_val_range b1) as H1.
  pose proof (byte_val_range b2) as H2. pose proof (byte_val_range b3) as H3.
  pose proof (byte_val_range b4) as H4. pose proof (byte_val_range b5) as H5.
  pose proof (byte_val_range b6) as H6. pose proof (byte_val_range b7) as H7.
  rewrite le_value_8, be_value_8. unfold be64toh.
  set (x := byte_val b0 + 2 ^ 8 * byte_val b1 + 2 ^ 16 * byte_val b2 +
            2 ^ 24 * byte_val b3 + 2 ^ 32 * byte_val b4 + 2 ^ 40 * byte_val b5 +
            2 ^ 48 * byte_val b6 + 2 ^ 56 * byte_val b7).
  assert (E0 : byte_at x 0 = byte_val b0).
  { replace x with ((0) + 1 *
      (byte_val b0 + 2 ^ 8 * (byte_val b1 + 2 ^ 8 * byte_val b2 + 2 ^ 16 * byte_val b3 + 2 ^ 24 * byte_val b4 + 2 ^ 32 * byte_val b5 + 2 ^ 40 * byte_val b6 + 2 ^ 48 * byte_val b7)))
      by (subst x; ring).
    apply (byte_at_digit 0); lia. }
  assert (E1 : byte_at x 1 = byte_val b1).
  { replace x with ((byte_val b0) + 2 ^ 8 *
      (byte_val b1 + 2 ^ 8 * (byte_val b2 + 2 ^ 8 * byte_val b3 + 2 ^ 16 * byte_val b4 + 2 ^ 24 * byte_val b5 + 2 ^ 32 * byte_val b6 + 2 ^ 40 * byte_val b7)))
      by (subst x; ring).
    apply (byte_at_digit 1); lia. }
  assert (E2 : byte_at x 2 = byte_val b2).
  { replace x with ((byte_val b0 + 2 ^ 8 * byte_val b1) + 2 ^ 16 *
      (byte_val b2 + 2 ^ 8 * (byte_val b3 + 2 ^ 8 * byte_val b4 + 2 ^ 16 * byte_val b5 + 2 ^ 24 * byte_val b6 + 2 ^ 32 * byte_val b7)))
      by (subst x; ring).
    apply (byte_at_digit 2); lia. }
  assert (E3 : byte_at x 3 = byte_val b3).
  { replace x with ((byte_val b0 + 2 ^ 8 * byte_val b1 + 2 ^ 16 * byte_val b2) + 2 ^ 24 *
      (byte_val b3 + 2 ^ 8 * (byte_val b4 + 2 ^ 8 * byte_val b5 + 2 ^ 16 * byte_val b6 + 2 ^ 24 * byte_val b7)))
      by (subst x; ring).
    apply (byte_at_digit 3); lia. }
  assert (E4 : byte_at x 4 = byte_val b4).
  { replace x with ((byte_val b0 + 2 ^ 8 * byte_val b1 + 2 ^ 16 * byte_val b2 + 2 ^ 24 * byte_val b3) + 2 ^ 32 *
      (byte_val b4 + 2 ^ 8 * (byte_val b5 + 2 ^ 8 * byte_val b6 + 2 ^ 16 * byte_val b7)))
      by (subst x; ring).
    apply (byte_at_digit 4); lia. }
  assert (E5 : byte_at x 5 = byte_val b5).
  { replace x with ((byte_val b0 + 2 ^ 8 * byte_val b1 + 2 ^ 16 * byte_val b2 + 2 ^ 24 * byte_val b3 + 2 ^ 32 * byte_val b4) + 2 ^ 40 *
      (byte_val b5 + 2 ^ 8 * (byte_val b6 + 2 ^ 8 * byte_val b7)))
      by (subst x; ring).
    apply (byte_at_digit 5); lia. }
  assert (E6 : byte_at x 6 = byte_val b6).
  { replace x with ((byte_val b0 + 2 ^ 8 * byte_val b1 + 2 ^ 16 * byte_val b2 + 2 ^ 24 * byte_val b3 + 2 ^ 32 * byte_val b4 + 2 ^ 40 * byte_val b5) + 2 ^ 48 *
      (byte_val b6 + 2 ^ 8 * (byte_val b7)))
      by (subst x; ring).
    apply (byte_at_digit 6); lia. }
  assert (E7 : byte_at x 7 = byte_val b7).
  { replace x with ((byte_val b0 + 2 ^ 8 * byte_val b1 + 2 ^ 16 * byte_val b2 + 2 ^ 24 * byte_val b3 + 2 ^ 32 * byte_val b4 + 2 ^ 40 * byte_val b5 + 2 ^ 48 * byte_val b6) + 2 ^ 56 *
      (byte_val b7 + 2 ^ 8 * (0)))
      by (subst x; ring).
    apply (byte_at_digit 7); lia. }
  rewrite E0, E1, E2, E3, E4, E5, E6, E7.
  rewrite (lor_shiftl_add 8) by lia.
  rewrite (lor_shiftl_add 16) by lia.
  rewrite (lor_shiftl_add 24) by lia.
  rewrite (lor_shiftl_add 32) by lia.
  rewrite (lor_shiftl_add 40) by lia.
  rewrite (lor_shiftl_add 48) by lia.
  rewrite (lor_shiftl_add 56) by lia.
  lia.
Qed.

Lemma firstn_skipn_length {A : Type} (data : list A) (off n : nat) :
  (off + n <= length data)%nat -> length (firstn n (skipn off data)) = n.
Proof. intros H. rewrite length_firstn, length_skipn. lia. Qed.

Lemma ntohl_memcpy (data : list byte) (off : nat) :
  (off + 4 <= length data)%nat ->
  ntohl (memcpy_uint data off 4) = be_value (firstn 4 (skipn off data)).
Proof.
  intros H. unfold memcpy_uint.
  pose proof (firstn_skipn_length data off 4 H) as Hlen.
  destruct (firstn 4 (skipn off data)) as [|b0 [|b1 [|b2 [|b3 [|b4 r]]]]];
    try discriminate Hlen.
  apply ntohl_le_value.
Qed.

Lemma be64toh_memcpy (data : list byte) (off : nat) :
  (off + 8 <= length data)%nat ->
  be64toh (memcpy_uint data off 8) = be_value (firstn 8 (skipn off data)).
Proof.
  intros H. unfold memcpy_uint.
  pose proof (firstn_skipn_length data off 8 H) as Hlen.
  destruct (firstn 8 (skipn off data))
    as [|b0 [|b1 [|b2 [|b3 [|b4 [|b5 [|b6 [|b7 [|b8 r]]]]]]]]];
    try discriminate Hlen.
  apply be64toh_le_value.
Qed.

(** X1. On a buffer of at least 20 bytes, [unpack_data] converts the
    network-order (big-endian) unsigned integers found at offsets 0, 4, 8
    (32 bits each) and 12 (64 bits). *)
Theorem unpack_data_network_order :
  forall data : list byte,
    (20 <= length data)%nat ->
    lat (unpack_data data) = float_of_Z (be_value (firstn 4 data)) /\
    lon (unpack_data data) = float_of_Z (be_value (firstn 4 (skipn 4 data))) /\
    alt (unpack_data data) = float_of_Z (be_value (firstn 4 (skipn 8 data))) /\
    timestamp (unpack_data data) =
      double_of_Z (be_value (firstn 8 (skipn 12 data))).
Proof.
  intros data H. unfold unpack_data. cbn [lat lon alt timestamp].
  rewrite !ntohl_memcpy by lia. rewrite be64toh_memcpy by lia.
  auto.
Qed.

Lemma unpack_data_network_order_witness :
  lat (unpack_data frame_late) = float_of_Z (be_value (firstn 4 frame_late)) /\
  lon (unpack_data frame_late) =
    float_of_Z (be_value (firstn 4 (skipn 4 frame_late))) /\
  alt (unpack_data frame_late) =
    float_of_Z (be_value (firstn 4 (skipn 8 frame_late))) /\
  timestamp (unpack_data frame_late) =
    double_of_Z (be_value (firstn 8 (skipn 12 frame_late))).
Proof.
  apply (unpack_data_network_order frame_late). simpl. lia.
Defined.

(** X2. Only the first 20 bytes of a frame are read: bytes 20 to 23 of the
    24-byte frame never reach the decoded record. *)
Theorem unpack_data_ignores_tail :
  forall head tail1 tail2 : list byte,
    length head = 20%nat ->
    unpack_data (head ++ tail1) = unpack_data (head ++ tail2).
Proof.
  intros head tail1 tail2 H. unfold unpack_data, memcpy_uint.
  rewrite !firstn_skipn_app by lia. reflexivity.
Qed.

Lemma unpack_data_ignores_tail_witness :
  unpack_data (firstn 20 frame_late ++ [x00; x00; x00; x00]) =
  unpack_data (firstn 20 frame_late ++ [xde; xad; xbe; xef]).
Proof.
  apply (unpack_data_ignores_tail (firstn 20 frame_late)). reflexivity.
Defined.

(** ** Rounding never yields a NaN, and stays finite on small integers *)

Lemma digits2_pos_size (p : positive) : digits2_pos p = Pos.size p.
Proof. induction p; simpl; congruence. Qed.

Lemma Zdigits2_nonneg (m : Z) : 0 <= Zdigits2 m.
Proof. destruct m; simpl; lia. Qed.

Lemma Zdigits2_gt (m : Z) : 0 <= m -> m < 2 ^ Zdigits2 m.
Proof.
  destruct m as [|p|p]; simpl; intros H; try lia.
  rewrite digits2_pos_size.
  pose proof (Pos.size_gt p) as Hgt.
  apply Pos2Z.pos_lt_pos in Hgt. rewrite Pos2Z.inj_pow in Hgt. exact Hgt.
Qed.

Lemma Zdigits2_bound (m k : Z) : 0 <= k -> 0 <= m < 2 ^ k -> Zdigits2 m <= k.
Proof.
  intros Hk [Hm Hlt]. destruct m as [|p|p]; simpl; try lia.
  rewrite digits2_pos_size.
  pose proof (Pos.size_le p) as Hle.
  apply Pos2Z.pos_le_pos in Hle. rewrite Pos2Z.inj_pow in Hle.
  destruct (Z.le_gt_cases (Z.pos (Pos.size p)) k) as [|Hgt]; [assumption|].
  exfalso.
  assert (Hp : 2 ^ (k + 1) <= 2 ^ Z.pos (Pos.size p))
    by (apply Z.pow_le_mono_r; lia).
  rewrite Z.pow_add_r in Hp by lia.
  change (Z.pos p~0) with (2 * Z.pos p) in Hle. lia.
Qed.

Lemma Zdigits2_succ (m : Z) : 0 <= m -> Zdigits2 (m + 1) <= Zdigits2 m + 1.
Proof.
  intros H. pose proof (Zdigits2_gt m H) as Hgt.
  pose proof (Zdigits2_nonneg m) as Hd.
  apply Zdigits2_bound; [lia|].
  rewrite Z.pow_add_r by lia. lia.
Qed.

Lemma digits2_pos_iter_xO (m d : positive) :
  Z.pos (digits2_pos (Pos.iter xO m d)) = Z.pos (digits2_pos m) + Z.pos d.
Proof.
  induction d as [|d IH] using Pos.peano_ind.
  - simpl. lia.
  - rewrite Pos.iter_succ. cbn [digits2_pos]. lia.
Qed.

Lemma shr_1_spec (mrs : shr_record) :
  0 <= shr_m mrs ->
  0 <= shr_m (shr_1 mrs) /\ Zdigits2 (shr_m (shr_1 mrs)) <= Zdigits2 (shr_m mrs).
Proof.
  destruct mrs as [m r s]. destruct m as [|[p|p|]|p]; simpl; lia.
Qed.

Lemma iter_pos_shr_1 (p : positive) :
  forall mrs : shr_record,
    0 <= shr_m mrs ->
    0 <= shr_m (iter_pos shr_1 p mrs) /\
    Zdigits2 (shr_m (iter_pos shr_1 p mrs)) <= Zdigits2 (shr_m mrs).
Proof.
  induction p as [p IH|p IH|]; intros mrs H; cbn [iter_pos].
  - destruct (shr_1_spec mrs H) as [H1 D1].
    destruct (IH _ H1) as [H2 D2]. destruct (IH _ H2) as [H3 D3]. lia.
  - destruct (IH _ H) as [H2 D2]. destruct (IH _ H2) as [H3 D3]. lia.
  - apply shr_1_spec, H.
Qed.

Lemma shr_spec (mrs : shr_record) (e n : Z) :
  0 <= shr_m mrs ->
  0 <= shr_m (fst (shr mrs e n)) /\
  Zdigits2 (shr_m (fst (shr mrs e n))) <= Zdigits2 (shr_m mrs) /\
  snd (shr mrs e n) = Z.max e (e + n).
Proof.
  intros H. destruct n as [|p|p]; cbn [shr fst snd]; try lia.
  destruct (iter_pos_shr_1 p mrs H). lia.
Qed.

Section Rounding.

Variables prec emax : Z.

Lemma shr_fexp_spec (m e : Z) (l : location) :
  0 <= m ->
  0 <= shr_m (fst (shr_fexp prec emax m e l)) /\
  Zdigits2 (shr_m (fst (shr_fexp prec emax m e l))) <= Zdigits2 m /\
  snd (shr_fexp prec emax m e l) = Z.max e (fexp prec emax (Zdigits2 m + e)).
Proof.
  intros H. unfold shr_fexp.
  assert (Hm : shr_m (shr_record_of_loc m l) = m)
    by (destruct l as [|[]]; reflexivity).
  pose proof (shr_spec (shr_record_of_loc m l) e
                (fexp prec emax (Zdigits2 m + e) - e)) as Hs.
  rewrite Hm in Hs. destruct (Hs H) as (H1 & H2 & H3).
  repeat split; [assumption | assumption |]. rewrite H3. lia.
Qed.

Lemma round_nearest_even_spec (m : Z) (l : location) :
  0 <= m ->
  0 <= round_nearest_even m l /\
  Zdigits2 (round_nearest_even m l) <= Zdigits2 m + 1.
Proof.
  intros H. pose proof (Zdigits2_succ m H).
  unfold round_nearest_even.
  destruct l as [|[]]; try destruct (Z.even m); lia.
Qed.

(** Rounding a non-negative mantissa never gives a NaN. *)
Lemma binary_round_aux_not_nan (sx : bool) (mx ex : Z) (lx : location) :
  0 <= mx -> is_nan (binary_round_aux prec emax sx mx ex lx) = false.
Proof.
  intros H. unfold binary_round_aux.
  destruct (shr_fexp_spec mx ex lx H) as (H1 & _ & _).
  destruct (shr_fexp prec emax mx ex lx) as [mrs1 e1]. cbn [fst snd] in H1.
  destruct (round_nearest_even_spec (shr_m mrs1) (loc_of_shr_record mrs1) H1)
    as [H2 _].
  destruct (shr_fexp_spec _ e1 loc_Exact H2) as (H3 & _ & _).
  destruct (shr_fexp prec emax _ e1 loc_Exact) as [mrs2 e2]. cbn [fst] in H3.
  destruct (shr_m mrs2) as [|p|p]; try lia; try reflexivity.
  destruct (e2 <=? emax - prec); reflexivity.
Qed.

(** With room for the exponent, rounding a non-negative mantissa gives
    zero or a positive finite value. *)
Lemma binary_round_aux_finite (mx ex : Z) (lx : location) :
  0 <= mx ->
  3 - emax - prec <= emax - prec ->
  Z.max ex (fexp prec emax (Zdigits2 mx + ex)) <= emax - prec ->
  Zdigits2 mx + 1 + Z.max ex (fexp prec emax (Zdigits2 mx + ex)) <= emax ->
  finite_nonneg (binary_round_aux prec emax false mx ex lx) = true.
Proof.
  intros H Hmin HE HD. unfold binary_round_aux.
  destruct (shr_fexp_spec mx ex lx H) as (H1 & D1 & E1).
  destruct (shr_fexp prec emax mx ex lx) as [mrs1 e1].
  cbn [fst snd] in H1, D1, E1.
  destruct (round_nearest_even_spec (shr_m mrs1) (loc_of_shr_record mrs1) H1)
    as [H2 D2].
  destruct (shr_fexp_spec _ e1 loc_Exact H2) as (H3 & D3 & E3).
  destruct (shr_fexp prec emax _ e1 loc_Exact) as [mrs2 e2].
  cbn [fst snd] in H3, D3, E3.
  destruct (shr_m mrs2) as [|p|p]; try lia; try reflexivity.
  destruct (Z.leb_spec e2 (emax - prec)) as [|Hgt]; [reflexivity|].
  exfalso. unfold fexp, emin in *. lia.
Qed.

End Rounding.

Lemma binary_normalize_not_nan (prec emax n e : Z) (szero : bool) :
  is_nan (binary_normalize prec emax n e szero) = false.
Proof.
  destruct n as [|m|m]; cbn [binary_normalize]; [reflexivity| |];
    unfold binary_round;
    destruct (shl_align m e (fexp prec emax (Z.pos (digits2_pos m) + e)));
    apply binary_round_aux_not_nan; lia.
Qed.

(** An integer below [2^k] converts to zero or to a positive finite value,
    provided the format has room for [2 k + 1] binary digits. *)
Lemma binary_normalize_finite (prec emax n k : Z) :
  0 < prec <= emax -> 2 * k + 1 <= emax ->
  0 <= n < 2 ^ k ->
  finite_nonneg (binary_normalize prec emax n 0 false) = true.
Proof.
  intros Hprec Hk Hn.
  assert (Hk0 : 0 <= k).
  { destruct (Z.le_gt_cases 0 k) as [|Hneg]; [assumption|].
    rewrite Z.pow_neg_r in Hn by lia. lia. }
  destruct n as [|m|m]; [reflexivity| |lia].
  pose proof (Zdigits2_bound (Z.pos m) k Hk0 Hn) as Hd. cbn [Zdigits2] in Hd.
  cbn [binary_normalize]. unfold binary_round, shl_align.
  destruct (fexp prec emax (Z.pos (digits2_pos m) + 0) - 0) as [|d|d] eqn:Ed;
    apply binary_round_aux_finite; try lia;
    cbn [Zdigits2]; try rewrite digits2_pos_iter_xO;
    unfold fexp, emin in *; lia.
Qed.

Lemma float_of_Z_finite (n : Z) :
  0 <= n < 2 ^ 32 -> finite_nonneg (float_of_Z n) = true.
Proof.
  intros H. unfold float_of_Z, prec32, emax32.
  apply (binary_normalize_finite 24 128 n 32); lia.
Qed.

Lemma double_of_Z_finite (n : Z) :
  0 <= n < 2 ^ 64 -> finite_nonneg (double_of_Z n) = true.
Proof.
  intros H. unfold double_of_Z, prec64, emax64.
  apply (binary_normalize_finite 53 1024 n 64); lia.
Qed.

Lemma byte_at_range (x i : Z) : 0 <= i -> 0 <= byte_at x i < 2 ^ 8.
Proof.
  intros Hi. rewrite byte_at_spec by exact Hi.
  apply Z.mod_pos_bound. lia.
Qed.

Lemma ntohl_range (x : Z) : 0 <= ntohl x < 2 ^ 32.
Proof.
  unfold ntohl.
  pose proof (byte_at_range x 0). pose proof (byte_at_range x 1).
  pose proof (byte_at_range x 2). pose proof (byte_at_range x 3).
  rewrite (lor_shiftl_add 8) by lia.
  rewrite (lor_shiftl_add 16) by lia.
  rewrite (lor_shiftl_add 24) by lia.
  lia.
Qed.

Lemma be64toh_range (x : Z) : 0 <= be64toh x < 2 ^ 64.
Proof.
  unfold be64toh.
  pose proof (byte_at_range x 0). pose proof (byte_at_range x 1).
  pose proof (byte_at_range x 2). pose proof (byte_at_range x 3).
  pose proof (byte_at_range x 4). pose proof (byte_at_range x 5).
  pose proof (byte_at_range x 6). pose proof (byte_at_range x 7).
  rewrite (lor_shiftl_add 8) by lia.
  rewrite (lor_shiftl_add 16) by lia.
  rewrite (lor_shiftl_add 24) by lia.
  rewrite (lor_shiftl_add 32) by lia.
  rewrite (lor_shiftl_add 40) by lia.
  rewrite (lor_shiftl_add 48) by lia.
  rewrite (lor_shiftl_add 56) by lia.
  lia.
Qed.

(** X3. Whatever the bytes, the four decoded fields are zero or positive
    and finite: [unpack_data] never returns a negative latitude, longitude
    or altitude, a NaN or an infinity. *)
Theorem unpack_data_fields_finite_nonneg :
  forall data : list byte,
    finite_nonneg (lat (unpack_data data)) = true /\
    finite_nonneg (lon (unpack_data data)) = true /\
    finite_nonneg (alt (unpack_data data)) = true /\
    finite_nonneg (timestamp (unpack_data data)) = true.
Proof.
  intros data. unfold unpack_data. cbn [lat lon alt timestamp].
  repeat split;
    first [apply float_of_Z_finite, ntohl_range
          |apply double_of_Z_finite, be64toh_range].
Qed.

(** ** The delays of a run are numbers *)

Lemma SFdiv_core_binary_nonneg (prec emax : Z) (m1 m2 : positive) (e1 e2 : Z) :
  0 <= fst (fst (SFdiv_core_binary prec emax (Z.pos m1) e1 (Z.pos m2) e2)).
Proof.
  unfold SFdiv_core_binary.
  set (s := e1 - e2 - _).
  set (m' := match s with Z.pos _ => Z.shiftl (Z.pos m1) s
                     | 0 => Z.pos m1 | Z.neg _ => 0 end).
  assert (Hm : 0 <= m').
  { subst m'. destruct s; try lia. apply Z.shiftl_nonneg. lia. }
  pose proof (Z.div_pos m' (Z.pos m2) Hm ltac:(lia)) as Hq.
  unfold Z.div in Hq.
  destruct (Z.div_eucl m' (Z.pos m2)) as [q r]. exact Hq.
Qed.

Lemma SFdiv_not_nan (prec emax : Z) (a : spec_float) (m : positive) (e : Z) :
  is_nan a = false ->
  is_nan (SFdiv prec emax a (S754_finite false m e)) = false.
Proof.
  intros Ha. destruct a as [s|s| |s ma ea]; try discriminate Ha;
    try reflexivity.
  cbn [SFdiv].
  pose proof (SFdiv_core_binary_nonneg prec emax ma m ea e) as Hq.
  destruct (SFdiv_core_binary prec emax (Z.pos ma) ea (Z.pos m) e)
    as [[mz ez] lz].
  apply binary_round_aux_not_nan. exact Hq.
Qed.

Lemma SFmul_not_nan (prec emax : Z) (a : spec_float) (m : positive) (e : Z) :
  is_nan a = false ->
  is_nan (SFmul prec emax a (S754_finite false m e)) = false.
Proof.
  intros Ha. destruct a as [s|s| |s ma ea]; try discriminate Ha;
    try reflexivity.
  cbn [SFmul]. apply binary_round_aux_not_nan. lia.
Qed.

Lemma SFsub_not_nan (prec emax : Z) (a b : spec_float) :
  is_nan a = false -> finite_nonneg b = true ->
  is_nan (SFsub prec emax a b) = false.
Proof.
  intros Ha Hb.
  destruct b as [[|]|sb| |[|] mb eb]; try discriminate Hb;
    destruct a as [[|]|sa| |sa ma ea]; try discriminate Ha;
    try reflexivity.
  cbn [SFsub]. apply binary_normalize_not_nan.
Qed.

Lemma double_of_Z_1000 :
  double_of_Z 1000 = S754_finite false 8796093022208000 (-43).
Proof. vm_compute. reflexivity. Qed.

(** With a finite non-negative send timestamp, the delay is not a NaN,
    whatever the clock reads. *)
Lemma calculate_latency_not_nan (now_ms : nat -> Z) (k : nat) (sent_ts : double) :
  finite_nonneg sent_ts = true ->
  is_nan (calculate_latency now_ms k sent_ts) = false.
Proof.
  intros Hs. unfold calculate_latency, dmul, dsub, ddiv.
  rewrite double_of_Z_1000.
  apply SFmul_not_nan, SFsub_not_nan; [|exact Hs].
  apply SFdiv_not_nan. unfold double_of_Z. apply binary_normalize_not_nan.
Qed.

Lemma timestamp_finite_nonneg (data : list byte) :
  finite_nonneg (timestamp (unpack_data data)) = true.
Proof.
  unfold unpack_data. cbn [timestamp].
  apply double_of_Z_finite, be64toh_range.
Qed.

Lemma reachable_delays_not_nan (now_ms : nat -> Z) (st : Receiver) :
  reachable now_ms st ->
  Forall (fun d => is_nan d = false) (delays st).
Proof.
  induction 1 as [|st chunk _ IH|st _ IH _].
  - constructor.
  - exact IH.
  - rewrite delays_process_frame. apply Forall_app. split; [exact IH|].
    constructor; [|constructor].
    apply calculate_latency_not_nan, timestamp_finite_nonneg.
Qed.

(** X4. No delay computed in a run is a NaN, whatever the bytes received
    and whatever the clock reads. *)
Theorem delays_never_nan :
  forall (now_ms : nat -> Z) (reads : list read_result),
    Forall (fun d => is_nan d = false) (delays (start_receiver now_ms reads)).
Proof.
  intros now_ms reads.
  apply (reachable_delays_not_nan now_ms), start_receiver_reachable.
Qed.

(** ** The order on doubles is a total preorder away from NaN *)

Lemma dle_trans (x y z : double) :
  dle x y = true -> dle y z = true -> dle x z = true.
Proof.
  unfold dle, SFleb, SFcompare.
  destruct x as [sx|sx| |sx mx ex], y as [sy|sy| |sy my ey],
           z as [sz|sz| |sz mz ez];
    try discriminate; try reflexivity;
    try (destruct sx; discriminate); try (destruct sy; discriminate);
    try (destruct sz; discriminate);
    try (destruct sx, sy; discriminate);
    try (destruct sy, sz; discriminate);
    try (destruct sx, sy, sz; (discriminate || reflexivity)).
  change (Pos.compare_cont Eq mx my) with (Pos.compare mx my).
  change (Pos.compare_cont Eq my mz) with (Pos.compare my mz).
  change (Pos.compare_cont Eq mx mz) with (Pos.compare mx mz).
  destruct sx, sy, sz; try discriminate; try reflexivity;
    destruct (Z.compare_spec ex ey), (Z.compare_spec ey ez),
             (Z.compare_spec ex ez);
    try lia; try discriminate; try reflexivity; subst;
    destruct (Pos.compare_spec mx my), (Pos.compare_spec my mz),
             (Pos.compare_spec mx mz);
    try lia; try discriminate; try reflexivity.
Qed.

Lemma dle_total (a b : double) :
  is_nan a = false -> is_nan b = false -> dlt b a = false -> dle a b = true.
Proof.
  unfold dle, dlt, SFleb, SFltb, SFcompare.
  destruct a as [sa|sa| |sa ma ea], b as [sb|sb| |sb mb eb];
    try discriminate; try reflexivity;
    try (destruct sa; (discriminate || reflexivity));
    try (destruct sb; (discriminate || reflexivity));
    try (destruct sa, sb; (discriminate || reflexivity)).
  intros _ _.
  change (Pos.compare_cont Eq ma mb) with (Pos.compare ma mb).
  change (Pos.compare_cont Eq mb ma) with (Pos.compare mb ma).
  destruct sa, sb; try discriminate; try reflexivity;
    destruct (Z.compare_spec ea eb), (Z.compare_spec eb ea);
    try lia; try discriminate; try reflexivity; subst;
    destruct (Pos.compare_spec ma mb), (Pos.compare_spec mb ma);
    try lia; try discriminate; try reflexivity.
Qed.

(** Not below plus infinity and not a NaN: plus infinity itself. *)
Lemma not_below_infinity (d : double) :
  is_nan d = false -> dlt d dinfinity = false -> d = dinfinity.
Proof.
  destruct d as [s|[|]| |s m e]; try discriminate; try reflexivity;
    destruct s; discriminate.
Qed.

(** ** The running extrema *)

Section Extrema.

Variable now_ms : nat -> Z.

Lemma min_delay_process_frame (st : Receiver) :
  min_delay (metrics (process_frame now_ms st)) =
  std_min (min_delay (metrics st))
    (calculate_latency now_ms (clock_calls st)
       (timestamp (unpack_data (buffer (metrics st))))).
Proof. reflexivity. Qed.

Lemma max_delay_process_frame (st : Receiver) :
  max_delay (metrics (process_frame now_ms st)) =
  std_max (max_delay (metrics st))
    (calculate_latency now_ms (clock_calls st)
       (timestamp (unpack_data (buffer (metrics st))))).
Proof. reflexivity. Qed.

Lemma reachable_min (st : Receiver) :
  reachable now_ms st ->
  (delays st = [] /\ min_delay (metrics st) = dinfinity \/
   In (min_delay (metrics st)) (delays st)) /\
  Forall (fun d => dle (min_delay (metrics st)) d = true) (delays st).
Proof.
  induction 1 as [|st chunk _ IH|st Hr IH _].
  - split; [left; split; reflexivity | constructor].
  - exact IH.
  - destruct IH as [Hin Hlb].
    destruct (reachable_extrema now_ms st Hr) as [_ Hmin].
    rewrite min_delay_process_frame, delays_process_frame.
    set (d := calculate_latency now_ms (clock_calls st)
                (timestamp (unpack_data (buffer (metrics st))))).
    assert (Hd : is_nan d = false)
      by apply calculate_latency_not_nan, timestamp_finite_nonneg.
    unfold std_min. destruct (dlt d (min_delay (metrics st))) eqn:E.
    + split.
      * right. apply in_or_app. right. left. reflexivity.
      * apply Forall_app. split.
        -- apply (Forall_impl _ (P := fun x => dle (min_delay (metrics st)) x = true));
             [|exact Hlb].
           intros x Hx. apply (dle_trans _ (min_delay (metrics st)));
             [apply dlt_dle, E | exact Hx].
        -- constructor; [apply dle_refl, Hd | constructor].
    + split.
      * right. apply in_or_app.
        destruct Hin as [[_ Hinf]|Hin]; [|left; exact Hin].
        right. left. rewrite Hinf in *.
        apply not_below_infinity; assumption.
      * apply Forall_app. split; [exact Hlb|].
        constructor; [|constructor].
        apply dle_total; assumption.
Qed.

Lemma reachable_max (st : Receiver) :
  reachable now_ms st ->
  (max_delay (metrics st) = dzero \/
   In (max_delay (metrics st)) (delays st)) /\
  Forall (fun d => dle d (max_delay (metrics st)) = true) (delays st) /\
  dle dzero (max_delay (metrics st)) = true.
Proof.
  induction 1 as [|st chunk _ IH|st Hr IH _].
  - split; [left; reflexivity | split; [constructor | reflexivity]].
  - exact IH.
  - destruct IH as (Hin & Hub & Hz).
    destruct (reachable_extrema now_ms st Hr) as [Hmax _].
    rewrite max_delay_process_frame, delays_process_frame.
    set (d := calculate_latency now_ms (clock_calls st)
                (timestamp (unpack_data (buffer (metrics st))))).
    assert (Hd : is_nan d = false)
      by apply calculate_latency_not_nan, timestamp_finite_nonneg.
    unfold std_max. destruct (dlt (max_delay (metrics st)) d) eqn:E.
    + split; [|split].
      * right. apply in_or_app. right. left. reflexivity.
      * apply Forall_app. split.
        -- apply (Forall_impl _ (P := fun x => dle x (max_delay (metrics st)) = true));
             [|exact Hub].
           intros x Hx. apply (dle_trans _ (max_delay (metrics st)));
             [exact Hx | apply dlt_dle, E].
        -- constructor; [apply dle_refl, Hd | constructor].
      * apply (dle_trans _ (max_delay (metrics st)));
          [exact Hz | apply dlt_dle, E].
    + split; [|split].
      * destruct Hin as [Hin|Hin]; [left; exact Hin|].
        right. apply in_or_app. left. exact Hin.
      * apply Forall_app. split; [exact Hub|].
        constructor; [|constructor].
        apply dle_total; assumption.
      * exact Hz.
Qed.

End Extrema.

(** X5. In every state of a run [min_delay] is the exact minimum of the
    delays computed so far: it is at most each of them, and it is one of
    them (plus infinity, its initial value, while there is none). *)
Theorem min_delay_is_minimum :
  forall (now_ms : nat -> Z) (st : Receiver),
    reachable now_ms st ->
    Forall (fun d => dle (min_delay (metrics st)) d = true) (delays st) /\
    (delays st = [] /\ min_delay (metrics st) = dinfinity \/
     In (min_delay (metrics st)) (delays st)).
Proof.
  intros now_ms st H. destruct (reachable_min now_ms st H). auto.
Qed.

Lemma min_delay_is_minimum_witness :
  let st := start_receiver clock_ms [ReadBytes six_frames] in
  Forall (fun d => dle (min_delay (metrics st)) d = true) (delays st) /\
  (delays st = [] /\ min_delay (metrics st) = dinfinity \/
   In (min_delay (metrics st)) (delays st)).
Proof.
  apply (min_delay_is_minimum clock_ms
           (start_receiver clock_ms [ReadBytes six_frames])).
  apply start_receiver_reachable.
Defined.

(** X6. In every state of a run [max_delay] is at least each delay
    computed so far and at least 0.0, its initial value; it is one of the
    delays or that initial 0.0. *)
Theorem max_delay_is_upper_bound :
  forall (now_ms : nat -> Z) (st : Receiver),
    reachable now_ms st ->
    Forall (fun d => dle d (max_delay (metrics st)) = true) (delays st) /\
    dle dzero (max_delay (metrics st)) = true /\
    (max_delay (metrics st) = dzero \/
     In (max_delay (metrics st)) (delays st)).
Proof.
  intros now_ms st H. destruct (reachable_max now_ms st H) as (? & ? & ?).
  auto.
Qed.

Lemma max_delay_is_upper_bound_witness :
  let st := start_receiver clock_ms [ReadBytes six_frames] in
  Forall (fun d => dle d (max_delay (metrics st)) = true) (delays st) /\
  dle dzero (max_delay (metrics st)) = true /\
  (max_delay (metrics st) = dzero \/
   In (max_delay (metrics st)) (delays st)).
Proof.
  apply (max_delay_is_upper_bound clock_ms
           (start_receiver clock_ms [ReadBytes six_frames])).
  apply start_receiver_reachable.
Defined.

(** ** Frames sit at fixed offsets *)

Lemma frame_at_0 (buf : list byte) : frame_at buf 0 = unpack_data buf.
Proof. unfold frame_at. rewrite Nat.mul_0_r. reflexivity. Qed.

Lemma frame_at_S (buf : list byte) (k : nat) :
  frame_at buf (S k) = frame_at (skipn MSG_SIZE buf) k.
Proof.
  unfold frame_at. rewrite skipn_skipn. f_equal. f_equal. lia.
Qed.

Lemma split_frames_offsets (fuel : nat) :
  forall buf : list byte,
    (length buf <= fuel)%nat ->
    split_frames fuel buf =
    (map (frame_at buf) (seq 0 (length buf / MSG_SIZE)),
     skipn (MSG_SIZE * (length buf / MSG_SIZE)) buf).
Proof.
  induction fuel as [|fuel IH]; intros buf Hlen.
  - destruct buf; [reflexivity | simpl in Hlen; lia].
  - rewrite split_frames_S.
    destruct (Nat.leb_spec MSG_SIZE (length buf)) as [Hge|Hlt].
    + rewrite IH by (rewrite length_skipn; unfold MSG_SIZE in *; lia).
      rewrite length_skipn.
      assert (Hdiv : (length buf / MSG_SIZE =
                      S ((length buf - MSG_SIZE) / MSG_SIZE))%nat).
      { replace (length buf) with ((length buf - MSG_SIZE) + 1 * MSG_SIZE)%nat
          at 1 by lia.
        rewrite Nat.div_add by (unfold MSG_SIZE; lia). lia. }
      rewrite Hdiv. cbn [seq map]. rewrite frame_at_0.
      rewrite <- seq_shift, map_map, skipn_skipn.
      f_equal.
      * f_equal. apply map_ext. intros k. symmetry. apply frame_at_S.
      * f_equal. lia.
    + rewrite Nat.div_small by exact Hlt.
      rewrite Nat.mul_0_r. reflexivity.
Qed.

(** X7. Over non-empty reads, the fixes decoded are those of the frames at
    offsets 0, 24, 48, ... of the byte stream, one per complete frame, and
    the buffer is left with the bytes after the last complete frame. No
    read boundary moves a frame. *)
Theorem frames_at_fixed_offsets :
  forall (now_ms : nat -> Z) (cs : list (list byte)),
    Forall (fun c => c <> []) cs ->
    let stream := concat cs in
    let st := start_receiver now_ms (map ReadBytes cs) in
    fixes st = map (frame_at stream) (seq 0 (length stream / MSG_SIZE)) /\
    buffer (metrics st) = skipn (MSG_SIZE * (length stream / MSG_SIZE)) stream.
Proof.
  intros now_ms cs Hne stream st.
  destruct (receive_decode now_ms cs receiver_init Hne) as [Hf Hb].
  { simpl. unfold MSG_SIZE. lia. }
  fold (start_receiver now_ms (map ReadBytes cs)) in Hf, Hb. fold st in Hf, Hb.
  change (buffer (metrics receiver_init) ++ concat cs) with stream in Hf, Hb.
  unfold decode_stream in Hf, Hb.
  rewrite split_frames_offsets in Hf, Hb by lia.
  auto.
Qed.

Lemma frames_at_fixed_offsets_witness :
  let stream := concat [chunk20; chunk28] in
  let st := start_receiver clock_ms (map ReadBytes [chunk20; chunk28]) in
  fixes st = map (frame_at stream) (seq 0 (length stream / MSG_SIZE)) /\
  buffer (metrics st) = skipn (MSG_SIZE * (length stream / MSG_SIZE)) stream.
Proof.
  apply (frames_at_fixed_offsets clock_ms [chunk20; chunk28]).
  repeat constructor; discriminate.
Defined.

(** ** The outer loop *)

Lemma receive_app (now_ms : nat -> Z) (pre post : list read_result) :
  forall st : Receiver,
    Forall delivers pre ->
    receive now_ms (pre ++ post) st = receive now_ms post (receive now_ms pre st).
Proof.
  induction pre as [|r pre IH]; intros st Hd; [reflexivity|].
  inversion Hd as [|? ? Hr Hpre]; subst. unfold delivers in Hr.
  cbn [app receive].
  destruct (Z.leb_spec (valread r) 0) as [Hle|_]; [lia|].
  destruct r as [chunk|]; [|simpl in Hr; lia].
  apply IH, Hpre.
Qed.

(** X8. Reads compose: after reads that all delivered bytes, the receiver
    goes on from the state they left, as if the later reads were a run of
    their own from that state. *)
Theorem receive_composes :
  forall (now_ms : nat -> Z) (pre post : list read_result) (st : Receiver),
    Forall delivers pre ->
    receive now_ms (pre ++ post) st = receive now_ms post (receive now_ms pre st).
Proof. intros. apply receive_app. assumption. Qed.

Lemma receive_composes_witness :
  receive clock_ms
    ([ReadBytes chunk20] ++ [ReadBytes chunk28; ReadError]) receiver_init =
  receive clock_ms [ReadBytes chunk28; ReadError]
    (receive clock_ms [ReadBytes chunk20] receiver_init).
Proof.
  apply (receive_composes clock_ms [ReadBytes chunk20]).
  constructor; [|constructor]. vm_compute. reflexivity.
Defined.

(** X9. The loop ends at the first read that returns 0 (end of stream) or
    an error: whatever later reads would deliver is never processed, and
    the state is the one left by the reads before. *)
Theorem receive_stops_at_end_of_stream :
  forall (now_ms : nat -> Z) (pre post : list read_result)
         (r : read_result) (st : Receiver),
    Forall delivers pre ->
    valread r <= 0 ->
    receive now_ms (pre ++ r :: post) st = receive now_ms pre st.
Proof.
  intros now_ms pre post r st Hd Hr.
  rewrite receive_app by exact Hd. cbn [receive].
  destruct (Z.leb_spec (valread r) 0) as [_|Hgt]; [reflexivity | lia].
Qed.

Lemma receive_stops_at_end_of_stream_witness :
  receive clock_ms
    ([ReadBytes chunk20] ++ ReadBytes [] :: [ReadBytes chunk28]) receiver_init =
  receive clock_ms [ReadBytes chunk20] receiver_init.
Proof.
  apply (receive_stops_at_end_of_stream clock_ms [ReadBytes chunk20]).
  - constructor; [|constructor]. vm_compute. reflexivity.
  - vm_compute. discriminate.
Defined.

(** ** What [display] shows *)

Section Display.

Variable now_ms : nat -> Z.

Lemma console_process_frame (st : Receiver) :
  exists ev : RenderEvent,
    console (process_frame now_ms st) = console st ++ [ev] /\
    r_total_bytes ev = total_bytes (metrics st) /\
    r_buffer_size ev = length (skipn MSG_SIZE (buffer (metrics st))).
Proof. eexists. repeat split; reflexivity. Qed.

Lemma process_frame_console (st : Receiver) :
  counters_agree (metrics st) -> console_agrees st ->
  total_bytes (metrics st) < counter_limit ->
  (MSG_SIZE <= length (buffer (metrics st)))%nat ->
  console_agrees (process_frame now_ms st).
Proof.
  unfold counters_agree, console_agrees, counter_limit.
  intros [Hpos Heq] [Hlen Hev] Hlim Hge.
  destruct (console_process_frame st) as (ev0 & Hc & Htb & Hbs).
  rewrite Hc. split.
  - rewrite total_received_process_frame.
    rewrite length_app. cbn [length].
    unfold MSG_SIZE in Hge. rewrite wrap_int_small by lia. lia.
  - intros i ev Hnth.
    destruct (Nat.lt_ge_cases i (length (console st))) as [Hi|Hi].
    + rewrite nth_error_app1 in Hnth by exact Hi. apply Hev, Hnth.
    + rewrite nth_error_app2 in Hnth by exact Hi.
      destruct (i - length (console st))%nat as [|k] eqn:Ek.
      * cbn [nth_error] in Hnth. injection Hnth as <-.
        rewrite Htb, Hbs, length_skipn. unfold MSG_SIZE in *. lia.
      * destruct k; discriminate Hnth.
Qed.

Lemma drain_loop_console (fuel : nat) :
  forall st : Receiver,
    counters_agree (metrics st) -> console_agrees st ->
    total_bytes (metrics st) < counter_limit ->
    console_agrees (drain_loop now_ms fuel st).
Proof.
  induction fuel as [|fuel IH]; intros st Hc Ha Hlim; [exact Ha|].
  rewrite drain_loop_S.
  destruct (Nat.leb_spec MSG_SIZE (length (buffer (metrics st)))) as [Hge|_];
    [|exact Ha].
  apply IH.
  - apply process_frame_counters; assumption.
  - apply process_frame_console; assumption.
  - rewrite total_bytes_process_frame. exact Hlim.
Qed.

Lemma receive_console (reads : list read_result) :
  forall st : Receiver,
    counters_agree (metrics st) -> console_agrees st ->
    total_bytes (metrics st) + bytes_read reads < counter_limit ->
    console_agrees (receive now_ms reads st).
Proof.
  induction reads as [|r reads IH]; intros st Hc Ha Hlim; [exact Ha|].
  cbn [receive]. destruct (valread r <=? 0); [exact Ha|].
  destruct r as [chunk|]; [|exact Ha].
  cbn [bytes_read] in Hlim.
  pose proof (bytes_read_nonneg reads) as Hnn.
  destruct (append_chunk_counters st chunk Hc) as [Hc1 Hb1]; [lia|].
  destruct (drain_loop_counters now_ms
              (length (buffer (metrics (append_chunk st chunk))))
              (append_chunk st chunk) Hc1) as [Hc2 Hb2]; [lia|].
  apply IH.
  - exact Hc2.
  - unfold on_read, drain. apply drain_loop_console; [exact Hc1 | exact Ha | lia].
  - unfold on_read, drain. rewrite Hb2, Hb1. lia.
Qed.

End Display.

(** X10. While the [int] frame counter has not overflowed, the [i]-th call
    of [display] (counting from 0) shows a byte total equal to the [i + 1]
    frames decoded so far plus the buffer size it shows. Its "Queued
    Messages" is the number of complete frames still waiting in the
    buffer, and its "Partial Message" is the byte total modulo 24. *)
Theorem display_counters :
  forall (now_ms : nat -> Z) (reads : list read_result)
         (i : nat) (ev : RenderEvent),
    bytes_read reads < counter_limit ->
    nth_error (console (start_receiver now_ms reads)) i = Some ev ->
    r_total_bytes ev = 24 * (Z.of_nat i + 1) + Z.of_nat (r_buffer_size ev) /\
    Z.of_nat (queued_messages ev) = r_total_bytes ev / 24 - (Z.of_nat i + 1) /\
    Z.of_nat (partial_message ev) = r_total_bytes ev mod 24.
Proof.
  intros now_ms reads i ev Hlim Hnth.
  assert (Ha : console_agrees (start_receiver now_ms reads)).
  { apply receive_console.
    - unfold counters_agree. simpl. lia.
    - split; [reflexivity|]. intros j e Hj. destruct j; discriminate Hj.
    - exact Hlim. }
  destruct Ha as [_ Hev]. specialize (Hev i ev Hnth).
  unfold queued_messages, partial_message, MSG_SIZE.
  rewrite Nat2Z.inj_div, Nat2Z.inj_mod. cbn [Z.of_nat Pos.of_succ_nat Pos.succ].
  split; [exact Hev|]. rewrite Hev.
  replace (24 * (Z.of_nat i + 1) + Z.of_nat (r_buffer_size ev))
    with (Z.of_nat (r_buffer_size ev) + (Z.of_nat i + 1) * 24) by ring.
  rewrite Z.div_add, Z.mod_add by lia. split; [lia | reflexivity].
Qed.

Lemma display_counters_witness :
  let ev := {| r_data := unpack_data frame_late;
               r_current_delay := S754_finite true 8796093022208000 (-43);
               r_avg_delay := S754_finite true 8796093022208000 (-43);
               r_total_bytes := 144;
               r_buffer_size := 120;
               r_clock := 1700000000001 |} in
  r_total_bytes ev = 24 * (Z.of_nat 0 + 1) + Z.of_nat (r_buffer_size ev) /\
  Z.of_nat (queued_messages ev) = r_total_bytes ev / 24 - (Z.of_nat 0 + 1) /\
  Z.of_nat (partial_message ev) = r_total_bytes ev mod 24.
Proof.
  apply (display_counters clock_ms [ReadBytes six_frames] 0).
  - vm_compute. reflexivity.
  - vm_compute. reflexivity.
Defined.

(** X11. While the [int] frame counter has not overflowed,
    [total_received] is the number of fixes decoded, which is also the
    number of calls of [display] and of entries of [delay_history]. *)
Theorem total_received_counts_fixes :
  forall (now_ms : nat -> Z) (reads : list read_result),
    bytes_read reads < counter_limit ->
    let st := start_receiver now_ms reads in
    total_received (metrics st) = Z.of_nat (length (fixes st)) /\
    length (console st) = length (fixes st) /\
    length (delay_history (metrics st)) = length (fixes st).
Proof.
  intros now_ms reads Hlim st.
  assert (Ha : console_agrees st).
  { apply receive_console.
    - unfold counters_agree. simpl. lia.
    - split; [reflexivity|]. intros j e Hj. destruct j; discriminate Hj.
    - exact Hlim. }
  destruct Ha as [Hlen _].
  pose proof (reachable_history now_ms st (start_receiver_reachable now_ms reads))
    as Hh.
  unfold fixes, delays in *. rewrite Hh, !length_map. auto.
Qed.

Lemma total_received_counts_fixes_witness :
  let st := start_receiver clock_ms [ReadBytes chunk20; ReadBytes six_frames] in
  total_received (metrics st) = Z.of_nat (length (fixes st)) /\
  length (console st) = length (fixes st) /\
  length (delay_history (metrics st)) = length (fixes st).
Proof.
  apply (total_received_counts_fixes clock_ms
           [ReadBytes chunk20; ReadBytes six_frames]).
  vm_compute. reflexivity.
Defined.

(** X12. [corrupted_packets] is never written: it is 0 in every state of a
    run, whatever the bytes received. *)
Theorem corrupted_packets_never_counted :
  forall (now_ms : nat -> Z) (st : Receiver),
    reachable now_ms st -> corrupted_packets (metrics st) = 0.
Proof.
  induction 1 as [|st chunk _ IH|st _ IH _]; [reflexivity | exact IH | exact IH].
Qed.

Lemma corrupted_packets_never_counted_witness :
  corrupted_packets
    (metrics (start_receiver clock_ms [ReadBytes frame_ieee; ReadBytes chunk20])) = 0.
Proof.
  apply (corrupted_packets_never_counted clock_ms).
  apply start_receiver_reachable.
Defined.

(** ** Small integers convert exactly *)

Lemma shr_fexp_exact (prec emax m e : Z) :
  fexp prec emax (Zdigits2 m + e) = e ->
  shr_fexp prec emax m e loc_Exact =
  ({| shr_m := m; shr_r := false; shr_s := false |}, e).
Proof.
  intros H. unfold shr_fexp. rewrite H, Z.sub_diag. reflexivity.
Qed.

Lemma binary_round_aux_exact (prec emax : Z) (sx : bool) (p : positive) (e : Z) :
  fexp prec emax (Z.pos (digits2_pos p) + e) = e ->
  e <= emax - prec ->
  binary_round_aux prec emax sx (Z.pos p) e loc_Exact = S754_finite sx p e.
Proof.
  intros Hf He. unfold binary_round_aux.
  rewrite shr_fexp_exact by exact Hf.
  cbn [shr_m loc_of_shr_record round_nearest_even].
  rewrite shr_fexp_exact by exact Hf.
  cbn [shr_m]. apply Z.leb_le in He. rewrite He. reflexivity.
Qed.

Lemma pos_iter_xO (m d : positive) :
  Z.pos (Pos.iter xO m d) = Z.pos m * 2 ^ Z.pos d.
Proof.
  induction d as [|d IH] using Pos.peano_ind.
  - simpl. lia.
  - rewrite Pos.iter_succ, Pos2Z.inj_succ, Z.pow_succ_r by lia.
    change (Z.pos (Pos.iter xO m d)~0) with (2 * Z.pos (Pos.iter xO m d)).
    rewrite IH. ring.
Qed.

(** A positive integer below [2^prec] is kept as it is: the result is
    [n * 2^k] with exponent [-k]. *)
Lemma binary_normalize_exact (prec emax n : Z) :
  0 < prec <= emax -> 2 <= emax -> 0 < n < 2 ^ prec ->
  exists (p : positive) (k : Z),
    0 <= k /\
    binary_normalize prec emax n 0 false = S754_finite false p (- k) /\
    Z.pos p = n * 2 ^ k.
Proof.
  intros Hprec Hemax Hn. destruct n as [|m|m]; try lia.
  assert (Hd : Z.pos (digits2_pos m) <= prec)
    by (apply (Zdigits2_bound (Z.pos m) prec); lia).
  cbn [binary_normalize]. unfold binary_round, shl_align.
  destruct (fexp prec emax (Z.pos (digits2_pos m) + 0) - 0) as [|d|d] eqn:Ed.
  - exists m, 0. split; [lia|]. split; [|lia].
    apply binary_round_aux_exact; unfold fexp, emin in *; lia.
  - exfalso. unfold fexp, emin in *. lia.
  - exists (Pos.iter xO m d), (Z.pos d). split; [lia|]. split.
    + replace (fexp prec emax (Z.pos (digits2_pos m) + 0)) with (- Z.pos d)
        by lia.
      apply binary_round_aux_exact.
      * rewrite digits2_pos_iter_xO. unfold fexp, emin in *. lia.
      * lia.
    + apply pos_iter_xO.
Qed.

Lemma to_Q_scaled (p : positive) (k n : Z) :
  0 <= k -> Z.pos p = n * 2 ^ k ->
  exists q : Q,
    to_Q (S754_finite false p (- k)) = Some q /\ (q == inject_Z n)%Q.
Proof.
  intros Hk Hp. eexists. split; [reflexivity|].
  rewrite Hp, inject_Z_mult, Qpower_opp.
  rewrite (Zpower_Qpower 2 k) by exact Hk.
  change (inject_Z 2) with 2%Q.
  rewrite <- Qmult_assoc, Qmult_inv_r, Qmult_1_r; [reflexivity|].
  intros E. apply (Qpower_not_0 2 k); [discriminate | exact E].
Qed.

Lemma to_Q_of_Z_exact (prec emax n : Z) :
  0 < prec <= emax -> 2 <= emax -> 0 <= n < 2 ^ prec ->
  exists q : Q,
    to_Q (binary_normalize prec emax n 0 false) = Some q /\
    (q == inject_Z n)%Q.
Proof.
  intros Hprec Hemax Hn.
  destruct (Z.eq_dec n 0) as [->|Hnz].
  - exists 0%Q. split; reflexivity.
  - destruct (binary_normalize_exact prec emax n Hprec Hemax ltac:(lia))
      as (p & k & Hk & -> & Hp).
    apply to_Q_scaled; assumption.
Qed.

(** X13. When the eight timestamp bytes spell, in network order, an
    integer below 2^53, the decoded timestamp is exactly that integer. *)
Theorem timestamp_exact_below_2_53 :
  forall data : list byte,
    (20 <= length data)%nat ->
    be_value (firstn 8 (skipn 12 data)) < 2 ^ 53 ->
    exists q : Q,
      to_Q (timestamp (unpack_data data)) = Some q /\
      (q == inject_Z (be_value (firstn 8 (skipn 12 data))))%Q.
Proof.
  intros data Hlen Hlt. unfold unpack_data. cbn [timestamp].
  pose proof (be64toh_range (memcpy_uint data 12 8)) as Hr.
  rewrite be64toh_memcpy in * by lia.
  unfold double_of_Z, prec64, emax64. apply to_Q_of_Z_exact; lia.
Qed.

Lemma timestamp_exact_below_2_53_witness :
  exists q : Q,
    to_Q (timestamp (unpack_data frame_late)) = Some q /\
    (q == inject_Z (be_value (firstn 8 (skipn 12 frame_late))))%Q.
Proof.
  apply (timestamp_exact_below_2_53 frame_late).
  - simpl. lia.
  - vm_compute. reflexivity.
Defined.

(** X14. When the four bytes of a coordinate field spell, in network
    order, an integer below 2^24, the decoded field is exactly that
    integer. *)
Theorem coordinates_exact_below_2_24 :
  forall data : list byte,
    (20 <= length data)%nat ->
    be_value (firstn 4 data) < 2 ^ 24 ->
    be_value (firstn 4 (skipn 4 data)) < 2 ^ 24 ->
    be_value (firstn 4 (skipn 8 data)) < 2 ^ 24 ->
    (exists q : Q, to_Q (lat (unpack_data data)) = Some q /\
                   (q == inject_Z (be_value (firstn 4 data)))%Q) /\
    (exists q : Q, to_Q (lon (unpack_data data)) = Some q /\
                   (q == inject_Z (be_value (firstn 4 (skipn 4 data))))%Q) /\
    (exists q : Q, to_Q (alt (unpack_data data)) = Some q /\
                   (q == inject_Z (be_value (firstn 4 (skipn 8 data))))%Q).
Proof.
  intros data Hlen H0 H4 H8. unfold unpack_data. cbn [lat lon alt].
  pose proof (ntohl_range (memcpy_uint data 0 4)) as R0.
  pose proof (ntohl_range (memcpy_uint data 4 4)) as R4.
  pose proof (ntohl_range (memcpy_uint data 8 4)) as R8.
  rewrite !ntohl_memcpy in * by lia. cbn [skipn] in R0.
  unfold float_of_Z, prec32, emax32.
  repeat split; apply to_Q_of_Z_exact; lia.
Qed.

Lemma coordinates_exact_below_2_24_witness :
  (exists q : Q, to_Q (lat (unpack_data frame_late)) = Some q /\
                 (q == inject_Z (be_value (firstn 4 frame_late)))%Q) /\
  (exists q : Q, to_Q (lon (unpack_data frame_late)) = Some q /\
                 (q == inject_Z (be_value (firstn 4 (skipn 4 frame_late))))%Q) /\
  (exists q : Q, to_Q (alt (unpack_data frame_late)) = Some q /\
                 (q == inject_Z (be_value (firstn 4 (skipn 8 frame_late))))%Q).
Proof.
  apply (coordinates_exact_below_2_24 frame_late).
  - simpl. lia.
  - vm_compute. reflexivity.
  - vm_compute. reflexivity.
  - vm_compute. reflexivity.
Defined.

(** ** What each call of [display] is handed *)

Lemma combine_snoc {A B : Type} (a : list A) (b : list B) (x : A) (y : B) :
  length a = length b ->
  combine (a ++ [x]) (b ++ [y]) = combine a b ++ [(x, y)].
Proof.
  revert b. induction a as [|a0 a IH]; intros [|b0 b] H;
    try discriminate H; [reflexivity|].
  simpl. f_equal. apply IH. simpl in H. lia.
Qed.

Section Events.

Variable now_ms : nat -> Z.

Lemma event_process_frame (st : Receiver) :
  exists ev : RenderEvent,
    console (process_frame now_ms st) = console st ++ [ev] /\
    r_data ev = unpack_data (buffer (metrics st)) /\
    r_current_delay ev =
      calculate_latency now_ms (clock_calls st)
        (timestamp (unpack_data (buffer (metrics st)))) /\
    r_avg_delay ev = average (delay_avg (process_frame now_ms st)) /\
    r_clock ev = now_ms (S (clock_calls st)).
Proof. eexists. repeat split; reflexivity. Qed.

Lemma length_delays (st : Receiver) : length (delays st) = length (console st).
Proof. unfold delays. apply length_map. Qed.

Lemma length_fixes (st : Receiver) : length (fixes st) = length (console st).
Proof. unfold fixes. apply length_map. Qed.

(** The averages shown are the averages of the windows. *)
Lemma reachable_averages (st : Receiver) :
  reachable now_ms st ->
  map r_avg_delay (console st) =
  map (fun i => average (lastn DELAY_WINDOW (firstn (S i) (delays st))))
      (seq 0 (length (console st))).
Proof.
  induction 1 as [|st chunk _ IH|st Hr IH Hge].
  - reflexivity.
  - exact IH.
  - destruct (event_process_frame st) as (ev & Hc & _ & Hd & Ha & _).
    pose proof (reachable_window now_ms _ (reach_frame now_ms st Hr Hge)) as Hw.
    rewrite delays_process_frame in *.
    rewrite Hc, map_app, length_app, IH. cbn [length map].
    rewrite Nat.add_1_r, seq_S, map_app. cbn [map Nat.add]. f_equal.
    + apply map_ext_in. intros i Hi. apply in_seq in Hi.
      rewrite firstn_app.
      replace (S i - length (delays st))%nat with 0%nat
        by (rewrite length_delays; lia).
      cbn [firstn]. rewrite app_nil_r. reflexivity.
    + rewrite Ha, Hw. f_equal. f_equal. f_equal.
      rewrite firstn_all2; [reflexivity|].
      rewrite length_app, length_delays. simpl. lia.
Qed.

(** Two clock readings per frame. *)
Lemma reachable_clock_calls (st : Receiver) :
  reachable now_ms st -> clock_calls st = (2 * length (console st))%nat.
Proof.
  induction 1 as [|st chunk _ IH|st _ IH _].
  - reflexivity.
  - exact IH.
  - destruct (event_process_frame st) as (ev & Hc & _).
    rewrite Hc, length_app. cbn [length].
    change (clock_calls (process_frame now_ms st)) with (S (S (clock_calls st))).
    lia.
Qed.

Lemma reachable_delays_clock (st : Receiver) :
  reachable now_ms st ->
  delays st =
    map (fun p => calculate_latency now_ms (2 * fst p) (timestamp (snd p)))
        (combine (seq 0 (length (fixes st))) (fixes st)) /\
  map r_clock (console st) =
    map (fun i : nat => now_ms (2 * i + 1)%nat) (seq 0 (length (console st))).
Proof.
  induction 1 as [|st chunk _ IH|st Hr IH _].
  - split; reflexivity.
  - exact IH.
  - destruct IH as [IHd IHc].
    pose proof (reachable_clock_calls st Hr) as Hk.
    destruct (event_process_frame st) as (ev & Hc & _ & _ & _ & Hclk).
    rewrite delays_process_frame, fixes_process_frame. split.
    + rewrite length_app. cbn [length]. rewrite Nat.add_1_r, seq_S.
      rewrite combine_snoc by (rewrite length_seq; reflexivity).
      rewrite map_app, <- IHd. cbn [map fst snd Nat.add]. f_equal. f_equal.
      f_equal. rewrite Hk, length_fixes. reflexivity.
    + rewrite Hc, map_app, length_app, IHc. cbn [length map].
      rewrite Nat.add_1_r, seq_S, map_app. cbn [map Nat.add]. f_equal. f_equal.
      rewrite Hclk, Hk. f_equal. lia.
Qed.

End Events.

(** X15. The average handed to the [i]-th call of [display] is the
    average of the last five delays computed up to that frame (of all of
    them while there are fewer than five). *)
Theorem displayed_average_is_windowed :
  forall (now_ms : nat -> Z) (reads : list read_result),
    let st := start_receiver now_ms reads in
    map r_avg_delay (console st) =
    map (fun i => average (lastn 5 (firstn (S i) (delays st))))
        (seq 0 (length (console st))).
Proof.
  intros now_ms reads st.
  apply (reachable_averages now_ms), start_receiver_reachable.
Qed.

(** X16. Every frame takes its own two readings of the clock: the delay
    of the [i]-th fix is computed from reading [2 i] and that fix's
    timestamp, and the time [display] prints with it is reading
    [2 i + 1], the wall clock and not the timestamp received. *)
Theorem delays_use_clock_at_decode_time :
  forall (now_ms : nat -> Z) (reads : list read_result),
    let st := start_receiver now_ms reads in
    delays st =
      map (fun p => calculate_latency now_ms (2 * fst p) (timestamp (snd p)))
          (combine (seq 0 (length (fixes st))) (fixes st)) /\
    map r_clock (console st) =
      map (fun i : nat => now_ms (2 * i + 1)%nat) (seq 0 (length (console st))).
Proof.
  intros now_ms reads st.
  apply (reachable_delays_clock now_ms), start_receiver_reachable.
Qed.

(** ** Byte accounting and short reads *)

Lemma wrap_size_add_l (a n : Z) : wrap_size (wrap_size a + n) = wrap_size (a + n).
Proof. unfold wrap_size, wrap. apply Zplus_mod_idemp_l. Qed.

Lemma total_bytes_drain_loop (now_ms : nat -> Z) (fuel : nat) :
  forall st : Receiver,
    total_bytes (metrics (drain_loop now_ms fuel st)) = total_bytes (metrics st).
Proof.
  induction fuel as [|fuel IH]; intros st; [reflexivity|].
  rewrite drain_loop_S.
  destruct (MSG_SIZE <=? length (buffer (metrics st)))%nat; [|reflexivity].
  rewrite IH. apply total_bytes_process_frame.
Qed.

Lemma receive_total_bytes (now_ms : nat -> Z) (reads : list read_result) :
  forall (st : Receiver) (n : Z),
    Forall delivers reads ->
    total_bytes (metrics st) = wrap_size n ->
    total_bytes (metrics (receive now_ms reads st)) =
    wrap_size (n + bytes_read reads).
Proof.
  induction reads as [|r reads IH]; intros st n Hd Hn.
  - simpl. rewrite Z.add_0_r. exact Hn.
  - inversion Hd as [|? ? Hr Hrest]; subst. unfold delivers in Hr.
    cbn [receive].
    destruct (Z.leb_spec (valread r) 0) as [Hle|_]; [lia|].
    destruct r as [chunk|]; [|simpl in Hr; lia].
    cbn [bytes_read]. rewrite Z.add_assoc. apply IH; [exact Hrest|].
    unfold on_read, drain.
    rewrite total_bytes_drain_loop, total_bytes_append_chunk, Hn.
    apply wrap_size_add_l.
Qed.

(** X17. [total_bytes] counts every byte the reads delivered, modulo 2^64
    (it is a [size_t]). *)
Theorem total_bytes_counts_stream :
  forall (now_ms : nat -> Z) (reads : list read_result),
    Forall delivers reads ->
    total_bytes (metrics (start_receiver now_ms reads)) =
    bytes_read reads mod 2 ^ 64.
Proof.
  intros now_ms reads Hd.
  apply (receive_total_bytes now_ms reads receiver_init 0 Hd). reflexivity.
Qed.

Lemma total_bytes_counts_stream_witness :
  total_bytes
    (metrics (start_receiver clock_ms [ReadBytes chunk20; ReadBytes six_frames])) =
  bytes_read [ReadBytes chunk20; ReadBytes six_frames] mod 2 ^ 64.
Proof.
  apply (total_bytes_counts_stream clock_ms
           [ReadBytes chunk20; ReadBytes six_frames]).
  repeat constructor.
Defined.

(** X18. A read that leaves fewer than 24 bytes in the buffer is only
    stored: nothing is decoded, counted or displayed, and the clock is not
    read. *)
Theorem short_read_is_withheld :
  forall (now_ms : nat -> Z) (st : Receiver) (chunk : list byte),
    (length (buffer (metrics st)) + length chunk < MSG_SIZE)%nat ->
    on_read now_ms st chunk = append_chunk st chunk /\
    console (on_read now_ms st chunk) = console st /\
    total_received (metrics (on_read now_ms st chunk)) =
      total_received (metrics st) /\
    delay_avg (on_read now_ms st chunk) = delay_avg st /\
    clock_calls (on_read now_ms st chunk) = clock_calls st /\
    buffer (metrics (on_read now_ms st chunk)) = buffer (metrics st) ++ chunk.
Proof.
  intros now_ms st chunk H.
  assert (E : on_read now_ms st chunk = append_chunk st chunk).
  { unfold on_read, drain.
    destruct (length (buffer (metrics (append_chunk st chunk)))) as [|fuel];
      [reflexivity|].
    rewrite drain_loop_S, buffer_append_chunk, length_app.
    apply Nat.leb_gt in H. rewrite H. reflexivity. }
  rewrite E. repeat split; reflexivity.
Qed.

Lemma short_read_is_withheld_witness :
  on_read clock_ms receiver_init chunk20 = append_chunk receiver_init chunk20 /\
  console (on_read clock_ms receiver_init chunk20) = console receiver_init /\
  total_received (metrics (on_read clock_ms receiver_init chunk20)) =
    total_received (metrics receiver_init) /\
  delay_avg (on_read clock_ms receiver_init chunk20) = delay_avg receiver_init /\
  clock_calls (on_read clock_ms receiver_init chunk20) =
    clock_calls receiver_init /\
  buffer (metrics (on_read clock_ms receiver_init chunk20)) =
    buffer (metrics receiver_init) ++ chunk20.
Proof.
  apply (short_read_is_withheld clock_ms receiver_init chunk20).
  vm_compute. lia.
Defined.

(** * A receipt time before the send timestamp gives a negative delay *)

(** ** Digits under shifts *)

Lemma Zdigits2_le (a b : Z) : 0 <= a <= b -> Zdigits2 a <= Zdigits2 b.
Proof.
  intros [Ha Hab]. apply Zdigits2_bound; [apply Zdigits2_nonneg|].
  pose proof (Zdigits2_gt b ltac:(lia)). lia.
Qed.

(** A positive integer has at least as many digits as the powers of two
    below it. *)
Lemma Zdigits2_lower (m k : Z) : 0 <= k -> 2 ^ k <= m -> k + 1 <= Zdigits2 m.
Proof.
  intros Hk Hm.
  assert (Hpos : 0 < 2 ^ k) by (apply Z.pow_pos_nonneg; lia).
  pose proof (Zdigits2_gt m ltac:(lia)) as Hgt.
  pose proof (Zdigits2_nonneg m) as Hd.
  assert (Hlt : 2 ^ k < 2 ^ Zdigits2 m) by lia.
  apply Z.pow_lt_mono_r_iff in Hlt; lia.
Qed.

Lemma Zdigits2_pos_lower (p : positive) :
  2 ^ (Z.pos (digits2_pos p) - 1) <= Z.pos p.
Proof.
  rewrite digits2_pos_size.
  pose proof (Pos.size_le p) as Hle.
  apply Pos2Z.pos_le_pos in Hle. rewrite Pos2Z.inj_pow in Hle.
  change (Z.pos p~0) with (2 * Z.pos p) in Hle.
  replace (Z.pos (Pos.size p)) with (Z.pos (Pos.size p) - 1 + 1) in Hle by lia.
  rewrite Z.pow_add_r in Hle by lia. lia.
Qed.

Lemma shr_1_digits (mrs : shr_record) :
  0 <= shr_m mrs ->
  Zdigits2 (shr_m (shr_1 mrs)) = Z.max 0 (Zdigits2 (shr_m mrs) - 1).
Proof.
  destruct mrs as [m r s].
  destruct m as [|[p|p|]|p]; cbn [shr_1 shr_m Zdigits2 digits2_pos];
    rewrite ?Pos2Z.inj_succ; lia.
Qed.

Lemma iter_pos_shr_1_digits (p : positive) :
  forall mrs : shr_record,
    0 <= shr_m mrs ->
    Zdigits2 (shr_m (iter_pos shr_1 p mrs)) =
    Z.max 0 (Zdigits2 (shr_m mrs) - Z.pos p).
Proof.
  induction p as [p IH|p IH|]; intros mrs H; cbn [iter_pos].
  - destruct (shr_1_spec mrs H) as [H1 _].
    destruct (iter_pos_shr_1 p _ H1) as [H2 _].
    rewrite IH, IH, shr_1_digits by assumption. lia.
  - destruct (iter_pos_shr_1 p _ H) as [H2 _].
    rewrite IH, IH by assumption. lia.
  - apply shr_1_digits, H.
Qed.

Lemma shr_digits (mrs : shr_record) (e n : Z) :
  0 <= shr_m mrs ->
  Zdigits2 (shr_m (fst (shr mrs e n))) =
  Z.max 0 (Zdigits2 (shr_m mrs) - Z.max 0 n).
Proof.
  intros H. pose proof (Zdigits2_nonneg (shr_m mrs)).
  destruct n as [|p|p]; cbn [shr fst]; try lia.
  rewrite iter_pos_shr_1_digits by exact H. lia.
Qed.

Section Validity.

Variables prec emax : Z.
Hypothesis Hprec : 0 < prec.

Lemma shr_fexp_digits (m e : Z) (l : location) :
  0 <= m ->
  Zdigits2 (shr_m (fst (shr_fexp prec emax m e l))) =
  Z.max 0 (Zdigits2 m - Z.max 0 (fexp prec emax (Zdigits2 m + e) - e)).
Proof.
  intros H. unfold shr_fexp.
  assert (Hm : shr_m (shr_record_of_loc m l) = m)
    by (destruct l as [|[]]; reflexivity).
  rewrite shr_digits by (rewrite Hm; exact H). rewrite Hm. reflexivity.
Qed.

(** When the mantissa is not more precise than the format, what rounding
    returns is in canonical form and within the exponent range. *)
Lemma binary_round_aux_valid (sx : bool) (mx ex : Z) (lx : location) :
  0 <= mx ->
  ex <= fexp prec emax (Zdigits2 mx + ex) ->
  valid_binary prec emax (binary_round_aux prec emax sx mx ex lx) = true.
Proof.
  intros H Hex. unfold binary_round_aux.
  pose proof (shr_fexp_digits mx ex lx H) as D1.
  destruct (shr_fexp_spec prec emax mx ex lx H) as (H1 & _ & E1).
  destruct (shr_fexp prec emax mx ex lx) as [mrs1 e1].
  cbn [fst snd] in H1, D1, E1.
  destruct (round_nearest_even_spec (shr_m mrs1) (loc_of_shr_record mrs1) H1)
    as [H2 D2].
  assert (R2 : shr_m mrs1 <= round_nearest_even (shr_m mrs1) (loc_of_shr_record mrs1)).
  { unfold round_nearest_even.
    destruct (loc_of_shr_record mrs1) as [|[]]; try destruct (Z.even _); lia. }
  pose proof (Zdigits2_le _ _ (conj H1 R2)) as D2'.
  set (m2 := round_nearest_even (shr_m mrs1) (loc_of_shr_record mrs1)) in *.
  pose proof (shr_fexp_digits m2 e1 loc_Exact H2) as D3.
  destruct (shr_fexp_spec prec emax m2 e1 loc_Exact H2) as (H3 & _ & E3).
  destruct (shr_fexp prec emax m2 e1 loc_Exact) as [mrs2 e2].
  cbn [fst snd] in H3, D3, E3.
  destruct (shr_m mrs2) as [|p|p] eqn:Em; try lia; try reflexivity.
  destruct (Z.leb_spec e2 (emax - prec)) as [Hle|Hgt]; [|reflexivity].
  cbn [valid_binary]. unfold bounded, canonical_mantissa.
  apply andb_true_intro. split; [|apply Z.leb_le; exact Hle].
  apply Z.eqb_eq. cbn [Zdigits2] in D3.
  pose proof (Zdigits2_nonneg mx). pose proof (Zdigits2_nonneg (shr_m mrs1)).
  pose proof (Zdigits2_nonneg m2).
  unfold fexp, emin in *. lia.
Qed.

Lemma binary_round_valid (sx : bool) (m : positive) (e : Z) :
  valid_binary prec emax (binary_round prec emax sx m e) = true.
Proof.
  unfold binary_round, shl_align.
  destruct (fexp prec emax (Z.pos (digits2_pos m) + e) - e) as [|d|d] eqn:Ed;
    apply binary_round_aux_valid; try lia;
    cbn [Zdigits2]; try rewrite digits2_pos_iter_xO;
    unfold fexp, emin in *; lia.
Qed.

Lemma binary_normalize_valid (n e : Z) (szero : bool) :
  valid_binary prec emax (binary_normalize prec emax n e szero) = true.
Proof.
  destruct n; cbn [binary_normalize]; [reflexivity| |];
    apply binary_round_valid.
Qed.

(** What a canonical mantissa says of its digits. *)
Lemma canonical_digits (s : bool) (m : positive) (e : Z) :
  valid_binary prec emax (S754_finite s m e) = true ->
  emin prec emax <= e /\
  Z.pos (digits2_pos m) <= prec /\
  (emin prec emax < e -> Z.pos (digits2_pos m) = prec).
Proof.
  cbn [valid_binary]. unfold bounded, canonical_mantissa. intros H.
  apply andb_prop in H. destruct H as [H _]. apply Z.eqb_eq in H.
  unfold fexp, emin in *. lia.
Qed.

(** The quotient [SFdiv] hands to the rounding has few enough digits. *)
Lemma SFdiv_core_binary_spec (m1 m2 : positive) (e1 e2 : Z) :
  let r := SFdiv_core_binary prec emax (Z.pos m1) e1 (Z.pos m2) e2 in
  0 <= fst (fst r) /\
  snd (fst r) <= fexp prec emax (Zdigits2 (fst (fst r)) + snd (fst r)).
Proof.
  unfold SFdiv_core_binary. cbn [Zdigits2].
  set (d1 := Z.pos (digits2_pos m1)). set (d2 := Z.pos (digits2_pos m2)).
  set (e' := Z.min (fexp prec emax (d1 + e1 - (d2 + e2))) (e1 - e2)).
  set (s := e1 - e2 - e').
  set (m' := match s with Z.pos _ => Z.shiftl (Z.pos m1) s
                     | 0 => Z.pos m1 | Z.neg _ => 0 end).
  assert (Hs : 0 <= s) by (subst s e'; lia).
  assert (Hm' : m' = Z.pos m1 * 2 ^ s).
  { subst m'. destruct s as [|p|p] eqn:Es; try lia.
    rewrite Z.shiftl_mul_pow2 by lia. reflexivity. }
  assert (Hpow : 0 < 2 ^ s) by (apply Z.pow_pos_nonneg; lia).
  pose proof (Z.div_pos m' (Z.pos m2) ltac:(nia) ltac:(lia)) as Hq.
  assert (Hdig : d1 + s - d2 <= Zdigits2 (m' / Z.pos m2)).
  { pose proof (Zdigits2_nonneg (m' / Z.pos m2)) as Hnn.
    destruct (Z.le_gt_cases (d1 + s - d2) 0) as [|Hk]; [lia|].
    assert (Hlow : 2 ^ (d1 + s - d2 - 1) <= m' / Z.pos m2).
    { apply Z.div_le_lower_bound; [lia|].
      pose proof (Zdigits2_pos_lower m1) as L1. fold d1 in L1.
      pose proof (Zdigits2_gt (Z.pos m2) ltac:(lia)) as G2.
      cbn [Zdigits2] in G2. fold d2 in G2.
      assert (Hd1 : 1 <= d1) by (subst d1; lia).
      assert (Hd2 : 1 <= d2) by (subst d2; lia).
      assert (Hsplit : 2 ^ (d1 - 1) * 2 ^ s =
                       2 ^ d2 * 2 ^ (d1 + s - d2 - 1)).
      { rewrite <- !Z.pow_add_r by lia. f_equal. lia. }
      assert (Hp : 0 < 2 ^ (d1 + s - d2 - 1)) by (apply Z.pow_pos_nonneg; lia).
      rewrite Hm'. nia. }
    pose proof (Zdigits2_lower _ (d1 + s - d2 - 1) ltac:(lia) Hlow). lia. }
  unfold Z.div in Hq, Hdig.
  destruct (Z.div_eucl m' (Z.pos m2)) as [q r]. cbn [fst snd].
  split; [exact Hq|].
  subst e' s. unfold fexp, emin in *. lia.
Qed.

Lemma SFdiv_valid (a : spec_float) (m : positive) (e : Z) :
  valid_binary prec emax (SFdiv prec emax a (S754_finite false m e)) = true.
Proof.
  destruct a as [s|s| |s ma ea]; try reflexivity.
  cbn [SFdiv].
  pose proof (SFdiv_core_binary_spec ma m ea e) as Hspec. cbv zeta in Hspec.
  destruct (SFdiv_core_binary prec emax (Z.pos ma) ea (Z.pos m) e)
    as [[mz ez] lz].
  cbn [fst snd] in Hspec. destruct Hspec as [Hq He].
  apply binary_round_aux_valid; assumption.
Qed.

(** ** Rounding something that is not too small keeps it away from zero *)

Lemma shr_fexp_positive (m e : Z) (l : location) :
  0 < m -> emin prec emax < Zdigits2 m + e ->
  0 < shr_m (fst (shr_fexp prec emax m e l)) /\
  Zdigits2 (shr_m (fst (shr_fexp prec emax m e l))) +
    snd (shr_fexp prec emax m e l) = Zdigits2 m + e.
Proof.
  intros Hm Hbig.
  pose proof (Zdigits2_lower m 0 ltac:(lia) ltac:(simpl; lia)) as Hone.
  pose proof (shr_fexp_digits m e l ltac:(lia)) as D.
  destruct (shr_fexp_spec prec emax m e l ltac:(lia)) as (H1 & _ & E1).
  destruct (shr_fexp prec emax m e l) as [mrs1 e1]. cbn [fst snd] in *.
  assert (Hd : 0 < Zdigits2 (shr_m mrs1))
    by (unfold fexp, emin in *; lia).
  split.
  - destruct (shr_m mrs1); simpl in Hd; lia.
  - unfold fexp, emin in *. lia.
Qed.

Lemma binary_round_aux_negative (mx ex : Z) (lx : location) :
  0 < mx -> emin prec emax < Zdigits2 mx + ex ->
  dlt (binary_round_aux prec emax true mx ex lx) dzero = true.
Proof.
  intros Hm Hbig. unfold binary_round_aux.
  destruct (shr_fexp_positive mx ex lx Hm Hbig) as [H1 S1].
  destruct (shr_fexp prec emax mx ex lx) as [mrs1 e1]. cbn [fst snd] in H1, S1.
  assert (R2 : shr_m mrs1 <= round_nearest_even (shr_m mrs1) (loc_of_shr_record mrs1)).
  { unfold round_nearest_even.
    destruct (loc_of_shr_record mrs1) as [|[]]; try destruct (Z.even _); lia. }
  pose proof (Zdigits2_le _ _ (conj (Z.lt_le_incl _ _ H1) R2)) as D2.
  set (m2 := round_nearest_even (shr_m mrs1) (loc_of_shr_record mrs1)) in *.
  destruct (shr_fexp_positive m2 e1 loc_Exact ltac:(lia) ltac:(lia)) as [H3 _].
  destruct (shr_fexp prec emax m2 e1 loc_Exact) as [mrs2 e2]. cbn [fst] in H3.
  destruct (shr_m mrs2) as [|p|p]; try lia.
  destruct (e2 <=? emax - prec); reflexivity.
Qed.

Lemma binary_round_negative (m : positive) (e : Z) :
  emin prec emax <= e ->
  dlt (binary_round prec emax true m e) dzero = true.
Proof.
  intros He. unfold binary_round, shl_align.
  destruct (fexp prec emax (Z.pos (digits2_pos m) + e) - e) as [|d|d] eqn:Ed;
    apply binary_round_aux_negative; try lia;
    cbn [Zdigits2]; try rewrite digits2_pos_iter_xO;
    unfold fexp, emin in *; lia.
Qed.

(** ** Subtraction and multiplication *)

Lemma shl_align_value (m : positive) (e ez : Z) :
  ez <= e -> Z.pos (fst (shl_align m e ez)) = Z.pos m * 2 ^ (e - ez).
Proof.
  intros H. unfold shl_align.
  destruct (ez - e) as [|d|d] eqn:Ed; cbn [fst].
  - replace (e - ez) with 0 by lia. lia.
  - lia.
  - rewrite pos_iter_xO. f_equal. f_equal. lia.
Qed.

(** Two canonical positive values compare as their aligned mantissas. *)
Lemma SFcompare_aligned (m1 m2 : positive) (e1 e2 : Z) :
  valid_binary prec emax (S754_finite false m1 e1) = true ->
  valid_binary prec emax (S754_finite false m2 e2) = true ->
  SFcompare (S754_finite false m1 e1) (S754_finite false m2 e2) = Some Lt ->
  Z.pos m1 * 2 ^ (e1 - Z.min e1 e2) < Z.pos m2 * 2 ^ (e2 - Z.min e1 e2).
Proof.
  intros V1 V2 Hc.
  destruct (canonical_digits _ _ _ V1) as (Hmin1 & Hd1 & _).
  destruct (canonical_digits _ _ _ V2) as (Hmin2 & _ & Hn2).
  cbn [SFcompare] in Hc.
  change (Pos.compare_cont Eq m1 m2) with (Pos.compare m1 m2) in Hc.
  destruct (Z.compare_spec e1 e2) as [Heq|Hlt|Hgt]; try discriminate Hc.
  - subst e2. rewrite Z.min_id, Z.sub_diag.
    destruct (Pos.compare_spec m1 m2); try discriminate Hc. lia.
  - rewrite Z.min_l by lia. rewrite Z.sub_diag.
    pose proof (Zdigits2_gt (Z.pos m1) ltac:(lia)) as G1. cbn [Zdigits2] in G1.
    pose proof (Zdigits2_pos_lower m2) as L2.
    rewrite (Hn2 ltac:(lia)) in L2.
    assert (P1 : 2 ^ Z.pos (digits2_pos m1) <= 2 ^ prec)
      by (apply Z.pow_le_mono_r; lia).
    assert (P2 : 2 ^ 1 <= 2 ^ (e2 - e1)) by (apply Z.pow_le_mono_r; lia).
    assert (P3 : 2 ^ prec = 2 ^ (prec - 1) * 2 ^ 1)
      by (rewrite <- Z.pow_add_r by lia; f_equal; lia).
    assert (P4 : 0 < 2 ^ (prec - 1)) by (apply Z.pow_pos_nonneg; lia).
    nia.
Qed.

(** Below a value that is zero or positive, the difference is negative
    and not zero. *)
Lemma SFsub_negative (x y : spec_float) :
  valid_binary prec emax x = true -> valid_binary prec emax y = true ->
  finite_nonneg y = true -> dlt x y = true ->
  dlt (SFsub prec emax x y) dzero = true /\
  valid_binary prec emax (SFsub prec emax x y) = true.
Proof.
  intros Vx Vy Hy Hlt.
  destruct y as [[|]|sy| |[|] my ey]; try discriminate Hy;
    destruct x as [[|]|[|]| |[|] mx ex]; try discriminate Hlt;
    cbn [SFsub negb]; auto.
  - (* negative minus positive *)
    cbn [cond_Zopp]. split; [|apply binary_normalize_valid; exact Hprec].
    destruct (canonical_digits _ _ _ Vx) as (Hx & _).
    destruct (canonical_digits _ _ _ Vy) as (Hy' & _).
    cbn [binary_normalize Z.opp Z.sub Z.add].
    apply binary_round_negative. lia.
  - (* positive minus a larger positive *)
    cbn [cond_Zopp]. split; [|apply binary_normalize_valid; exact Hprec].
    destruct (canonical_digits _ _ _ Vx) as (Hx & _).
    destruct (canonical_digits _ _ _ Vy) as (Hy' & _).
    pose proof (SFcompare_aligned mx my ex ey Vx Vy) as Hal.
    unfold dlt, SFltb in Hlt.
    destruct (SFcompare (S754_finite false mx ex) (S754_finite false my ey))
      as [[| |]|] eqn:Ec; try discriminate Hlt.
    specialize (Hal eq_refl).
    rewrite <- (shl_align_value mx ex (Z.min ex ey)) in Hal by lia.
    rewrite <- (shl_align_value my ey (Z.min ex ey)) in Hal by lia.
    destruct (Z.pos (fst (shl_align mx ex (Z.min ex ey))) -
              Z.pos (fst (shl_align my ey (Z.min ex ey)))) as [|d|d] eqn:Ed;
      try lia.
    cbn [binary_normalize]. apply binary_round_negative. lia.
Qed.

(** A negative value times a positive finite one with enough digits is
    negative and not zero. *)
Lemma SFmul_negative (x : spec_float) (m : positive) (e : Z) :
  valid_binary prec emax x = true ->
  0 < Z.pos (digits2_pos m) + e ->
  dlt x dzero = true ->
  dlt (SFmul prec emax x (S754_finite false m e)) dzero = true.
Proof.
  intros Vx Hm Hx.
  destruct x as [s|[|]| |[|] mx ex]; try discriminate Hx; try reflexivity.
  cbn [SFmul xorb].
  destruct (canonical_digits _ _ _ Vx) as (Hmin & _).
  apply binary_round_aux_negative; [lia|].
  assert (Hle : Zdigits2 (Z.pos m) <= Zdigits2 (Z.pos (mx * m))).
  { apply Zdigits2_le. nia. }
  cbn [Zdigits2] in *. lia.
Qed.

End Validity.

(** ** The delay *)

(** When the receipt time, in seconds, is below the send timestamp, the
    delay is below zero. *)
Lemma calculate_latency_negative (now_ms : nat -> Z) (k : nat) (sent_ts : double) :
  finite_nonneg sent_ts = true ->
  valid_binary prec64 emax64 sent_ts = true ->
  dlt (ddiv (double_of_Z (now_ms k)) (double_of_Z 1000)) sent_ts = true ->
  dlt (calculate_latency now_ms k sent_ts) dzero = true.
Proof.
  intros Hs Vs Hlt. unfold calculate_latency, dmul, dsub, ddiv in *.
  rewrite double_of_Z_1000 in *.
  assert (Hp : 0 < prec64) by reflexivity.
  destruct (SFsub_negative prec64 emax64 Hp _ sent_ts
              (SFdiv_valid prec64 emax64 Hp _ _ _) Vs Hs Hlt) as [Hneg Hval].
  apply SFmul_negative; [exact Hp | exact Hval | reflexivity | exact Hneg].
Qed.

Lemma timestamp_valid (data : list byte) :
  valid_binary prec64 emax64 (timestamp (unpack_data data)) = true.
Proof.
  unfold unpack_data. cbn [timestamp]. unfold double_of_Z.
  apply binary_normalize_valid. reflexivity.
Qed.

Lemma push_window_shape (w : list double) (x : double) :
  push_window w x =
  (if (length w <? DELAY_WINDOW)%nat then w else tl w) ++ [x].
Proof.
  unfold push_window, DELAY_WINDOW. rewrite length_app. cbn [length].
  destruct (Nat.ltb_spec (length w) 5) as [Hlt|Hge];
    destruct (Nat.ltb_spec 5 (length w + 1)) as [Hlt'|Hge']; try lia.
  - reflexivity.
  - apply tl_app_nonempty. intros E. rewrite E in Hge. simpl in Hge. lia.
Qed.

Lemma average_snoc (w : list double) (x : double) :
  average (w ++ [x]) =
  ddiv (dadd (fold_left dadd w dzero) x)
       (double_of_Z (Z.of_nat (length w + 1))).
Proof.
  unfold average, accumulate.
  rewrite fold_left_app, length_app. cbn [fold_left length].
  destruct (w ++ [x]) eqn:E; [destruct w; discriminate E | reflexivity].
Qed.

(** C6. When the receipt time is earlier than the decoded send timestamp
    (the seconds of the clock reading are below the timestamp), the delay
    computed is below zero and is kept as it is: that negative value is
    the one pushed on the rolling window and on the history, it is summed
    as it is into the average handed to [display], and it is the current
    delay handed to [display]. Nothing floors it to zero. *)
Theorem negative_delay_preserved :
  forall (now_ms : nat -> Z) (st : Receiver),
    let data := unpack_data (buffer (metrics st)) in
    let current_ts :=
      ddiv (double_of_Z (now_ms (clock_calls st))) (double_of_Z 1000) in
    let latency := calculate_latency now_ms (clock_calls st) (timestamp data) in
    let w0 := if (length (delay_avg st) <? 5)%nat
              then delay_avg st else tl (delay_avg st) in
    let st' := process_frame now_ms st in
    dlt current_ts (timestamp data) = true ->
    latency = dmul (dsub current_ts (timestamp data)) (double_of_Z 1000) /\
    dlt latency dzero = true /\
    delay_avg st' = w0 ++ [latency] /\
    delay_history (metrics st') = delay_history (metrics st) ++ [latency] /\
    exists ev : RenderEvent,
      console st' = console st ++ [ev] /\
      r_current_delay ev = latency /\
      r_avg_delay ev =
        ddiv (dadd (fold_left dadd w0 dzero) latency)
             (double_of_Z (Z.of_nat (length w0 + 1))).
Proof.
  intros now_ms st data current_ts latency w0 st' Hlt.
  assert (Hw : delay_avg st' = w0 ++ [latency])
    by apply push_window_shape.
  split; [reflexivity|]. split.
  - apply calculate_latency_negative;
      [apply timestamp_finite_nonneg | apply timestamp_valid | exact Hlt].
  - split; [exact Hw|]. split; [reflexivity|].
    destruct (event_process_frame now_ms st) as (ev & Hc & _ & Hd & Ha & _).
    exists ev. split; [exact Hc|]. split; [exact Hd|].
    fold st' in Ha. rewrite Ha, Hw. apply average_snoc.
Qed.

Lemma negative_delay_preserved_witness :
  let st := append_chunk receiver_init frame_late in
  let data := unpack_data (buffer (metrics st)) in
  let current_ts :=
    ddiv (double_of_Z (clock_ms (clock_calls st))) (double_of_Z 1000) in
  let latency := calculate_latency clock_ms (clock_calls st) (timestamp data) in
  let w0 := if (length (delay_avg st) <? 5)%nat
            then delay_avg st else tl (delay_avg st) in
  let st' := process_frame clock_ms st in
  latency = dmul (dsub current_ts (timestamp data)) (double_of_Z 1000) /\
  dlt latency dzero = true /\
  delay_avg st' = w0 ++ [latency] /\
  delay_history (metrics st') = delay_history (metrics st) ++ [latency] /\
  exists ev : RenderEvent,
    console st' = console st ++ [ev] /\
    r_current_delay ev = latency /\
    r_avg_delay ev =
      ddiv (dadd (fold_left dadd w0 dzero) latency)
           (double_of_Z (Z.of_nat (length w0 + 1))).
Proof.
  apply (negative_delay_preserved clock_ms
           (append_chunk receiver_init frame_late)).
  vm_compute. reflexivity.
Defined.
